(** * play.py: a command-line chess game, human (White) against a model (Black)

    The program is an orchestration loop around two external collaborators:
    the chess rules library (boards, legal moves, SAN/UCI notation) and a
    hosted model reached through a chat-completions client.  Both are taken
    here as parameters: the rules library as a record of operations
    ([Engine]) with the part of its documented contract the program relies
    on ([Contract]), the model as a function from the request to what the
    call produces ([Client]).  Everything else is the code of [play.py]:
    [get_gpt4_move], the game loop of [play_chess], the result report and
    the module-level start-up. *)

From Stdlib Require Import String Ascii List Bool Arith Lia DecimalString.
Import ListNotations.

Notation "a ^^ b" := (String.append a b) (at level 60, right associativity).

(** ** Python values the program handles *)

(** Exceptions, as far as the handlers of [play.py] tell them apart:
    [except ValueError] catches [ValueError] and its subclasses,
    [except Exception] catches every other one as well. *)
Inductive exn : Type :=
| ValueError (msg : string)
| Exception (msg : string).

Definition exn_str (e : exn) : string :=
  match e with
  | ValueError msg => msg
  | Exception msg => msg
  end.

(** The outcome of a call that may raise. *)
Inductive res (A : Type) : Type :=
| Ok (a : A)
| Raise (e : exn).
Arguments Ok {A} a.
Arguments Raise {A} e.

Definition nl : string := String (ascii_of_nat 10) EmptyString.

(** [str(n)] for a natural number, as an f-string renders it. *)
Definition str_nat (n : nat) : string := NilZero.string_of_uint (Nat.to_uint n).

(** [enumerate(l)], counting from [i]. *)
Fixpoint enumerate_from {A : Type} (i : nat) (l : list A) : list (nat * A) :=
  match l with
  | [] => []
  | x :: l' => (i, x) :: enumerate_from (S i) l'
  end.

Definition enumerate {A : Type} (l : list A) : list (nat * A) := enumerate_from 0 l.

(** ** The rules library *)

Inductive Color : Type := WHITE | BLACK.

Definition other (c : Color) : Color :=
  match c with
  | WHITE => BLACK
  | BLACK => WHITE
  end.

Definition Color_eqb (c d : Color) : bool :=
  match c, d with
  | WHITE, WHITE | BLACK, BLACK => true
  | _, _ => false
  end.

(** The operations of the [chess] package that [play.py] calls. *)
Record Engine : Type := {
  Board : Type;
  Move : Type;
  new_board : Board;                      (* chess.Board() *)
  turn : Board -> Color;                  (* board.turn *)
  legal_moves : Board -> list Move;       (* list(board.legal_moves) *)
  contains : Board -> Move -> bool;       (* move in board.legal_moves *)
  is_game_over : Board -> bool;           (* board.is_game_over() *)
  result : Board -> string;               (* board.result() *)
  san : Board -> Move -> string;          (* board.san(move) *)
  parse_san : Board -> string -> res Move; (* board.parse_san(text) *)
  from_uci : string -> res Move;          (* chess.Move.from_uci(text) *)
  push : Board -> Move -> Board;          (* board.push(move) *)
  null : Move                             (* chess.Move.null() *)
}.

(** What the package documents about these operations, as far as the
    program relies on it.  Membership in [board.legal_moves] agrees with its
    enumeration.  A board that is not over (no checkmate, no stalemate, no
    draw rule) has a legal move.  [Board.parse_san]: "the returned move is
    guaranteed to be either legal or a null move"; the text [--] is read as
    the null move; the call raises [ValueError] (its subclasses for invalid,
    illegal and ambiguous text) and nothing else.  [Move.from_uci] raises
    [ValueError] on text that is not coordinate notation.  [Board.push]
    hands the turn to the other side, also for the null move.  The null
    move is never legal.  A new board has White to move and is not over. *)
Record Contract (E : Engine) : Prop := {
  contains_spec : forall b m, contains E b m = true <-> In m (legal_moves E b);
  playable : forall b, is_game_over E b = false -> legal_moves E b <> [];
  parse_san_sound : forall b s m,
      parse_san E b s = Ok m -> In m (legal_moves E b) \/ m = null E;
  parse_san_null : forall b, parse_san E b "--"%string = Ok (null E);
  parse_san_raises : forall b s e,
      parse_san E b s = Raise e -> exists msg, e = ValueError msg;
  from_uci_raises : forall s e,
      from_uci E s = Raise e -> exists msg, e = ValueError msg;
  turn_push : forall b m, turn E (push E b m) = other (turn E b);
  null_illegal : forall b, ~ In (null E) (legal_moves E b);
  new_board_white : turn E (new_board E) = WHITE;
  new_board_open : is_game_over E (new_board E) = false
}.

(** ** The model call *)

(** The request built by [get_gpt4_move]: the model name, the single user
    message, the [enum] of the [move] parameter of the one function offered,
    and the function the call is forced to choose. *)
Record Request : Type := {
  req_model : string;
  req_content : string;
  req_enum : list string;
  req_tool_choice : string
}.

(** The value of [arguments.get("move")]. *)
Inductive PyVal : Type :=
| PyNone
| PyStr (s : string)
| PyOther (repr : string).

Definition py_str (v : PyVal) : string :=
  match v with
  | PyNone => "None"%string
  | PyStr s => s
  | PyOther repr => repr
  end.

(** What [json.loads(function_call.arguments)] followed by [.get("move")]
    produces. *)
Inductive ToolArgs : Type :=
| Malformed (e : exn)
| Loaded (v : PyVal).

(** What [client.chat.completions.create] followed by
    [response.choices[0].message] produces. *)
Inductive ApiOutcome : Type :=
| ApiRaises (e : exn)
| NoToolCall
| ToolCall (args : ToolArgs).

Definition Client : Type := Request -> ApiOutcome.

Inductive Player : Type := Human | Model.

Section Program.

Variable E : Engine.

(** ** Effects *)

(** What a run does besides computing: console output, the board shown in
    the browser, lines read, the pause, requests sent, and the two
    mutations, [board.push] and [move_history.append]. *)
Inductive Event : Type :=
| Print (s : string)
| PrintBoard (b : Board E)
| Display (b : Board E) (title : string)
| Input (prompt answer : string)
| Sleep (seconds : nat)
| ApiCall (req : Request)
| Pushed (who : Player) (before : Board E) (m : Move E)
| Appended (s : string).

(** ** [get_gpt4_move] *)

(** The body of the [for i, move in enumerate(move_history)] loop. *)
Definition move_string_step (acc : string) (im : nat * string) : string :=
  let '(i, move) := im in
  if Nat.even i
  then acc ^^ str_nat (i / 2 + 1) ^^ ". " ^^ move ^^ " "
  else acc ^^ move ^^ " ".

Definition move_string_loop (move_history : list string) : string :=
  fold_left move_string_step (enumerate move_history) EmptyString.

(** [if board.turn == chess.WHITE and move_history:] *)
Definition move_string (board : Board E) (move_history : list string) : string :=
  let s := move_string_loop move_history in
  match turn E board, move_history with
  | WHITE, _ :: _ => s ^^ str_nat (length move_history / 2 + 1) ^^ ". "
  | _, _ => s
  end.

Definition legal_moves_san (board : Board E) : list string :=
  map (san E board) (legal_moves E board).

Definition prompt_of (board : Board E) (move_history : list string) : string :=
  "Let's play chess. " ^^ move_string board move_history.

Definition request_of (board : Board E) (move_history : list string) : Request :=
  {| req_model := "gpt-4o";
     req_content := prompt_of board move_history;
     req_enum := legal_moves_san board;
     req_tool_choice := "make_chess_move" |}.

(** [list(board.legal_moves)[0]] *)
Definition first_legal (board : Board E) : res (Move E) :=
  match legal_moves E board with
  | m :: _ => Ok m
  | [] => Raise (Exception "list index out of range")
  end.

(** [board.parse_san(chosen_move)] on whatever [arguments.get] returned. *)
Definition parse_chosen (board : Board E) (v : PyVal) : res (Move E) :=
  match v with
  | PyStr s => parse_san E board s
  | _ => Raise (Exception "expected string or bytes-like object")
  end.

(** The body of the [try]. *)
Definition try_model (client : Client) (board : Board E) (req : Request)
  : list Event * res (Move E) :=
  match client req with
  | ApiRaises e => ([], Raise e)
  | ToolCall (Malformed e) => ([], Raise e)
  | ToolCall (Loaded v) =>
      ([Print (nl ^^ "GPT-4o says: I choose " ^^ py_str v)], parse_chosen board v)
  | NoToolCall =>
      ([Print "GPT-4o didn't make a function call. Choosing randomly."],
       first_legal board)
  end.

Definition get_gpt4_move (client : Client) (board : Board E)
  (move_history : list string) : list Event * res (Move E) :=
  let req := request_of board move_history in
  let pre := [Print (nl ^^ "--- Prompt sent to GPT-4o ---");
              Print (req_content req);
              Print ("--- End of prompt ---" ^^ nl);
              ApiCall req] in
  match try_model client board req with
  | (evs, Ok m) => (pre ++ evs, Ok m)
  | (evs, Raise e) =>
      (pre ++ evs ++ [Print ("Error getting move from GPT-4o: " ^^ exn_str e);
                      Print "Choosing a random legal move instead."],
       first_legal board)
  end.

(** ** The game loop of [play_chess] *)

(** The two objects the loop owns and mutates. *)
Record State : Type := {
  board : Board E;
  move_history : list string
}.

(** How one pass through the body of the [while] ends. *)
Inductive Iter : Type :=
| Applied (st : State) (evs : list Event)   (* a move was pushed *)
| Retry (evs : list Event)                  (* [continue], nothing changed *)
| Crash (e : exn) (evs : list Event).       (* an exception left the loop *)

(** [san_move = board.san(move); board.push(move);
    move_history.append(san_move)] *)
Definition apply_move (who : Player) (st : State) (move : Move E)
  : State * list Event :=
  let san_move := san E (board st) move in
  ({| board := push E (board st) move;
      move_history := move_history st ++ [san_move] |},
   [Pushed who (board st) move; Appended san_move]).

Definition input_prompt : string := nl ^^ "Enter your move (e.g. 'e4' or 'e2e4'): ".

Definition illegal_msg : string := nl ^^ "Illegal move! Try again.".

Definition invalid_msg : string :=
  nl ^^ "Invalid move format! Please use standard notation (e.g. 'e4') or UCI notation (e.g. 'e2e4').".

(** The two nested [try] blocks, up to the choice of the move: the move to
    apply, or the message printed before [continue], or the exception that
    neither handler catches. *)
Inductive Parsed : Type :=
| Chosen (move : Move E)
| Rejected (msg : string)
| Escaped (e : exn).

Definition read_move (b : Board E) (move_input : string) : Parsed :=
  match parse_san E b move_input with
  | Ok move => Chosen move
  | Raise (ValueError _) =>
      match from_uci E move_input with
      | Ok move =>
          if contains E b move then Chosen move else Rejected illegal_msg
      | Raise (ValueError _) => Rejected invalid_msg
      | Raise e => Escaped e
      end
  | Raise e => Escaped e
  end.

(** The human's branch, after [input] returned [move_input]. *)
Definition human_turn (st : State) (move_input : string) : Iter :=
  match read_move (board st) move_input with
  | Chosen move =>
      let '(st', evs) := apply_move Human st move in
      Applied st' (evs ++ [Print (nl ^^ "Board after your move:");
                           PrintBoard (board st');
                           Display (board st') ("After " ^^ san E (board st) move)])
  | Rejected msg => Retry [Print msg]
  | Escaped e => Crash e []
  end.

(** The model's branch. *)
Definition model_turn (client : Client) (st : State) : Iter :=
  let pre := [Print (nl ^^ "GPT-4o is thinking..."); Sleep 1] in
  match get_gpt4_move client (board st) (move_history st) with
  | (evs, Raise e) => Crash e (pre ++ evs)
  | (evs, Ok move) =>
      let '(st', evs') := apply_move Model st move in
      let san_move := san E (board st) move in
      Applied st' (pre ++ evs ++ evs' ++
                   [Print (nl ^^ "GPT-4o plays: " ^^ san_move);
                    Print (nl ^^ "Board after GPT-4o's move:");
                    PrintBoard (board st');
                    Display (board st') ("After " ^^ san_move)])
  end.

(** How a run of the loop stands when the model stops following it. *)
Inductive Status : Type :=
| Finished               (* the loop was left: the board is over *)
| Raised (e : exn)       (* an exception left [play_chess] *)
| Waiting.               (* blocked on the next line or reply *)

Record Run : Type := {
  status : Status;
  final : State;
  trace : list Event
}.

Definition before (evs : list Event) (r : Run) : Run :=
  {| status := status r; final := final r; trace := evs ++ trace r |}.

(** The [while not board.is_game_over()] loop.  The lines typed by the human
    are [stdin], the successive behaviours of the model service are [api];
    every pass through the body consumes one of either, and [fuel] bounds
    the number of passes followed. *)
Fixpoint game_loop (fuel : nat) (stdin : list string) (api : list Client)
  (st : State) : Run :=
  if is_game_over E (board st) then
    {| status := Finished; final := st; trace := [] |}
  else
    match fuel with
    | 0 => {| status := Waiting; final := st; trace := [] |}
    | S fuel' =>
        match turn E (board st) with
        | WHITE =>
            match stdin with
            | [] => {| status := Waiting; final := st; trace := [] |}
            | move_input :: stdin' =>
                match human_turn st move_input with
                | Applied st' evs =>
                    before (Input input_prompt move_input :: evs)
                           (if is_game_over E (board st')
                            then {| status := Finished; final := st'; trace := [] |}
                            else game_loop fuel' stdin' api st')
                | Retry evs =>
                    before (Input input_prompt move_input :: evs)
                           (game_loop fuel' stdin' api st)
                | Crash e evs =>
                    {| status := Raised e; final := st;
                       trace := Input input_prompt move_input :: evs |}
                end
            end
        | BLACK =>
            match api with
            | [] => {| status := Waiting; final := st; trace := [] |}
            | client :: api' =>
                match model_turn client st with
                | Applied st' evs => before evs (game_loop fuel' stdin api' st')
                | Retry evs => before evs (game_loop fuel' stdin api' st)
                | Crash e evs => {| status := Raised e; final := st; trace := evs |}
                end
            end
        end
    end.

(** The report printed after the loop. *)
Definition report (result : string) : list Event :=
  [Print (nl ^^ "Game over!");
   Print ("Result: " ^^ result);
   Print (if String.eqb result "1-0" then "You (White) won!"
          else if String.eqb result "0-1" then "GPT-4o (Black) won!"
          else "It's a draw!")].

Definition initial : State := {| board := new_board E; move_history := [] |}.

Definition play_chess (fuel : nat) (stdin : list string) (api : list Client) : Run :=
  let pre := [Print "Initial board:";
              PrintBoard (new_board E);
              Display (new_board E) "Initial position"] in
  let r := game_loop fuel stdin api initial in
  match status r with
  | Finished =>
      {| status := Finished; final := final r;
         trace := pre ++ trace r ++ report (result E (board (final r))) |}
  | _ => before pre r
  end.

(** ** The module as a script *)

Definition missing_key_msg : string :=
  "OPENAI_API_KEY environment variable is not set. Please set it before running the program.".

Definition export_hint : string :=
  "Please set your OpenAI API key with: export OPENAI_API_KEY='your-api-key'".

(** [not api_key], for the value of [os.environ.get("OPENAI_API_KEY")]. *)
Definition key_absent (api_key : option string) : bool :=
  match api_key with
  | None => true
  | Some k => String.eqb k EmptyString
  end.

(** How the process ends: normally, by an exception nobody caught (the
    interpreter then prints the traceback, which ends with the exception's
    message, on the error stream), or still waiting. *)
Inductive Exit : Type :=
| Returned
| Uncaught (e : exn)
| Blocked.

(** Running the file: the credential check at module level, then, under
    [if __name__ == "__main__"], [play_chess] inside
    [try ... except ValueError]. *)
Definition main (api_key : option string) (is_main : bool)
  (fuel : nat) (stdin : list string) (api : list Client) : Exit * list Event :=
  if key_absent api_key then (Uncaught (ValueError missing_key_msg), [])
  else if is_main then
    let r := play_chess fuel stdin api in
    match status r with
    | Finished => (Returned, trace r)
    | Waiting => (Blocked, trace r)
    | Raised (ValueError msg) =>
        (Returned, trace r ++ [Print ("Error: " ^^ msg); Print export_hint])
    | Raised e => (Uncaught e, trace r)
    end
  else (Returned, []).

(** The last line of what the interpreter writes for an uncaught exception. *)
Definition traceback_last (e : exn) : string :=
  match e with
  | ValueError msg => "ValueError: " ^^ msg
  | Exception msg => "Exception: " ^^ msg
  end.

End Program.

Arguments Print {E} s.
Arguments PrintBoard {E} b.
Arguments Display {E} b title.
Arguments Input {E} prompt answer.
Arguments Sleep {E} seconds.
Arguments ApiCall {E} req.
Arguments Pushed {E} who before m.
Arguments Appended {E} s.
Arguments board {E} s.
Arguments move_history {E} s.
Arguments Applied {E} st evs.
Arguments Retry {E} evs.
Arguments Crash {E} e evs.
Arguments Chosen {E} move.
Arguments Rejected {E} msg.
Arguments Escaped {E} e.
Arguments status {E} r.
Arguments final {E} r.
Arguments trace {E} r.

(** ** Reading a trace *)

(** One call of [board.push], as logged: who moved, the board it was pushed
    on, the move. *)
Record Ply (E : Engine) : Type := {
  ply_who : Player;
  ply_before : Board E;
  ply_move : Move E
}.
Arguments ply_who {E} p.
Arguments ply_before {E} p.
Arguments ply_move {E} p.

Fixpoint pushes {E : Engine} (evs : list (Event E)) : list (Ply E) :=
  match evs with
  | [] => []
  | Pushed who b m :: evs' =>
      {| ply_who := who; ply_before := b; ply_move := m |} :: pushes evs'
  | _ :: evs' => pushes evs'
  end.

Fixpoint appended {E : Engine} (evs : list (Event E)) : list string :=
  match evs with
  | [] => []
  | Appended s :: evs' => s :: appended evs'
  | _ :: evs' => appended evs'
  end.

Fixpoint requests {E : Engine} (evs : list (Event E)) : list Request :=
  match evs with
  | [] => []
  | ApiCall req :: evs' => req :: requests evs'
  | _ :: evs' => requests evs'
  end.

(** The SAN of a logged move, rendered on the board it was pushed on. *)
Definition ply_san {E : Engine} (p : Ply E) : string :=
  san E (ply_before p) (ply_move p).

(** [ps] is a line of play from [b] to [b']: each move was pushed on the
    board the moves before it produced. *)
Fixpoint line {E : Engine} (b : Board E) (ps : list (Ply E)) (b' : Board E) : Prop :=
  match ps with
  | [] => b' = b
  | p :: ps' => ply_before p = b /\ line (push E b (ply_move p)) ps' b'
  end.

(** The side the program gives each colour. *)
Definition player_of (c : Color) : Player :=
  match c with
  | WHITE => Human
  | BLACK => Model
  end.

(** [Human; Model; Human; ...] *)
Fixpoint alternating (p : Player) (n : nat) : list Player :=
  match n with
  | 0 => []
  | S n' => p :: alternating (match p with Human => Model | Model => Human end) n'
  end.

(** The events of one pass through the loop body. *)
Definition iter_events {E : Engine} (it : Iter E) : list (Event E) :=
  match it with
  | Applied _ evs => evs
  | Retry evs => evs
  | Crash _ evs => evs
  end.

(** The state after [move] was applied to [st]. *)
Definition after {E : Engine} (st : State E) (move : Move E) : State E :=
  {| board := push E (board st) move;
     move_history := move_history st ++ [san E (board st) move] |}.

Definition ply {E : Engine} (who : Player) (st : State E) (move : Move E) : Ply E :=
  {| ply_who := who; ply_before := board st; ply_move := move |}.

(** What one pass through the loop body, by [who], did to the state. *)
Definition iter_ok {E : Engine} (who : Player) (st : State E) (it : Iter E) : Prop :=
  match it with
  | Applied st' evs =>
      exists m, st' = after st m /\ pushes evs = [ply who st m] /\
                appended evs = [san E (board st) m]
  | Retry evs => pushes evs = [] /\ appended evs = []
  | Crash e evs => pushes evs = [] /\ appended evs = [] /\ exists msg, e = Exception msg
  end.

(** The log of a run of the loop: the pushes form a line of play from the
    board the loop started on to the board it stopped on, the history grew
    by the SAN of each pushed move (rendered before the push) and by
    nothing else, and each push was made by the player of the side to
    move. *)
Definition logged {E : Engine} (st : State E) (r : Run E) : Prop :=
  line (board st) (pushes (trace r)) (board (final r)) /\
  move_history (final r) = move_history st ++ map ply_san (pushes (trace r)) /\
  appended (trace r) = map ply_san (pushes (trace r)) /\
  Forall (fun p => ply_who p = player_of (turn E (ply_before p))) (pushes (trace r)).

(** The three failures: the call raises, the reply has no tool call, the
    selection does not translate (or cannot be decoded).  Each ends in
    [list(board.legal_moves)[0]]. *)
Definition failed {E : Engine} (b : Board E) (out : ApiOutcome) : Prop :=
  match out with
  | ApiRaises _ => True
  | NoToolCall => True
  | ToolCall (Malformed _) => True
  | ToolCall (Loaded v) => exists e, parse_chosen E b v = Raise e
  end.

(** What the loop shows for a line it rejects: the prompt with the line
    read, then the message. *)
Definition rejection {E : Engine} (b : Board E) (move_input : string) : list (Event E) :=
  match read_move E b move_input with
  | Rejected msg => [Input input_prompt move_input; Print msg]
  | _ => []
  end.

(** The transcript as the specification words it: for every move, its
    number and a dot before a move of White, then the notation and a
    space. *)
Definition transcript_piece (im : nat * string) : string :=
  if Nat.even (fst im)
  then str_nat (fst im / 2 + 1) ^^ ". " ^^ snd im ^^ " "
  else snd im ^^ " ".

Definition transcript (move_history : list string) : string :=
  fold_right String.append EmptyString (map transcript_piece (enumerate move_history)).

(** ** What a run shows *)

Fixpoint displays {E : Engine} (evs : list (Event E)) : list (Board E * string) :=
  match evs with
  | [] => []
  | Display b title :: evs' => (b, title) :: displays evs'
  | _ :: evs' => displays evs'
  end.

Fixpoint printed_boards {E : Engine} (evs : list (Event E)) : list (Board E) :=
  match evs with
  | [] => []
  | PrintBoard b :: evs' => b :: printed_boards evs'
  | _ :: evs' => printed_boards evs'
  end.

(** The SAN of each move of a sequence played from [b], each rendered on
    the board the moves before it lead to. *)
Fixpoint sans_along {E : Engine} (b : Board E) (ms : list (Move E)) : list string :=
  match ms with
  | [] => []
  | m :: ms' => san E b m :: sans_along (push E b m) ms'
  end.

(** The lines read from the terminal. *)
Fixpoint inputs {E : Engine} (evs : list (Event E)) : list string :=
  match evs with
  | [] => []
  | Input _ answer :: evs' => answer :: inputs evs'
  | _ :: evs' => inputs evs'
  end.

(** The side to move after [n] pushes when [c] was to move before. *)
Fixpoint side_after (n : nat) (c : Color) : Color :=
  match n with
  | 0 => c
  | S n' => side_after n' (other c)
  end.

(** A run that waits does so on an open board, for the one thing it lacks:
    all the lines were read when White is to move, all the replies used
    when Black is. *)
Definition starved {E : Engine} (stdin : list string) (api : list Client)
  (r : Run E) : Prop :=
  is_game_over E (board (final r)) = false /\
  (turn E (board (final r)) = WHITE -> inputs (trace r) = stdin) /\
  (turn E (board (final r)) = BLACK -> length (requests (trace r)) = length api).

(** The position a logged move leads to. *)
Definition ply_after {E : Engine} (p : Ply E) : Board E :=
  push E (ply_before p) (ply_move p).

(** The page shown for a logged move: the position it leads to, under the
    title "After" and its SAN. *)
Definition shown {E : Engine} (p : Ply E) : Board E * string :=
  (ply_after p, "After " ^^ ply_san p).

Definition by_model {E : Engine} (p : Ply E) : bool :=
  match ply_who p with
  | Model => true
  | Human => false
  end.

Definition header : string := "Let's play chess. ".

(** What one pass through the loop body showed and sent. *)
Definition iter_shows {E : Engine} (who : Player) (reqs : list Request)
  (st : State E) (it : Iter E) : Prop :=
  match it with
  | Applied st' evs =>
      exists m, st' = after st m /\ pushes evs = [ply who st m] /\
                displays evs = [shown (ply who st m)] /\
                printed_boards evs = [ply_after (ply who st m)] /\
                requests evs = reqs
  | Retry evs =>
      pushes evs = [] /\ displays evs = [] /\ printed_boards evs = [] /\
      requests evs = reqs
  | Crash _ evs =>
      pushes evs = [] /\ displays evs = [] /\ printed_boards evs = [] /\
      requests evs = reqs
  end.

(** What a run of the loop showed and sent: a page and a printed board for
    each push and for nothing else, pushes only on boards that are not
    over, and requests whose message is the opening sentence followed by
    the transcript of a prefix of the final history. *)
Definition rendered {E : Engine} (r : Run E) : Prop :=
  displays (trace r) = map shown (pushes (trace r)) /\
  printed_boards (trace r) = map ply_after (pushes (trace r)) /\
  Forall (fun p => is_game_over E (ply_before p) = false) (pushes (trace r)) /\
  Forall (fun req => exists k,
              req_content req
              = header ^^ transcript (firstn k (move_history (final r))))
         (requests (trace r)).

(** What holds of a run when the engine keeps its contract: no exception
    leaves the loop, every pushed move is legal or the null move, and one
    request was sent for each move of the model. *)
Definition sound_run {E : Engine} (r : Run E) : Prop :=
  (status r = Finished \/ status r = Waiting) /\
  Forall (fun p => In (ply_move p) (legal_moves E (ply_before p))
                   \/ ply_move p = null E) (pushes (trace r)) /\
  length (requests (trace r)) = length (filter by_model (pushes (trace r))).


(** ** A small engine to run the program on

    A rules engine given by a table: a position is the list of the moves
    pushed since the start (coordinate notation, [0000] for the null move),
    and the table gives, for the opening position and the positions along
    the lines used below, the legal moves with their SAN and the result
    code.  A position that the table does not list has no legal move and
    counts as over.  The engine serves to run the program on concrete
    inputs and to show that [Contract] can be met. *)
Module Book.

Local Open Scope string_scope.

Definition whites_first : list (string * string) :=
  [("g1h3", "Nh3"); ("g1f3", "Nf3"); ("b1c3", "Nc3"); ("b1a3", "Na3");
   ("h2h3", "h3"); ("g2g3", "g3"); ("f2f3", "f3"); ("e2e3", "e3");
   ("d2d3", "d3"); ("c2c3", "c3"); ("b2b3", "b3"); ("a2a3", "a3");
   ("h2h4", "h4"); ("g2g4", "g4"); ("f2f4", "f4"); ("e2e4", "e4");
   ("d2d4", "d4"); ("c2c4", "c4"); ("b2b4", "b4"); ("a2a4", "a4")].

Definition blacks_first : list (string * string) :=
  [("g8h6", "Nh6"); ("g8f6", "Nf6"); ("b8c6", "Nc6"); ("b8a6", "Na6");
   ("h7h6", "h6"); ("g7g6", "g6"); ("f7f6", "f6"); ("e7e6", "e6");
   ("d7d6", "d6"); ("c7c6", "c6"); ("b7b6", "b6"); ("a7a6", "a6");
   ("h7h5", "h5"); ("g7g5", "g5"); ("f7f5", "f5"); ("e7e5", "e5");
   ("d7d5", "d5"); ("c7c5", "c5"); ("b7b5", "b5"); ("a7a5", "a5")].

(** After 1. f3 e5. *)
Definition whites_second : list (string * string) :=
  [("g1h3", "Nh3"); ("e1f2", "Kf2"); ("b1c3", "Nc3"); ("b1a3", "Na3");
   ("f3f4", "f4"); ("h2h3", "h3"); ("g2g3", "g3"); ("e2e3", "e3");
   ("d2d3", "d3"); ("c2c3", "c3"); ("b2b3", "b3"); ("a2a3", "a3");
   ("h2h4", "h4"); ("g2g4", "g4"); ("e2e4", "e4"); ("d2d4", "d4");
   ("c2c4", "c4"); ("b2b4", "b4"); ("a2a4", "a4")].

(** After 1. f3 e5 2. g4. *)
Definition blacks_second : list (string * string) :=
  [("g8e7", "Ne7"); ("g8h6", "Nh6"); ("g8f6", "Nf6");
   ("f8e7", "Be7"); ("f8d6", "Bd6"); ("f8c5", "Bc5"); ("f8b4", "Bb4");
   ("f8a3", "Ba3"); ("e8e7", "Ke7");
   ("d8e7", "Qe7"); ("d8f6", "Qf6"); ("d8g5", "Qg5"); ("d8h4", "Qh4#");
   ("b8c6", "Nc6"); ("b8a6", "Na6");
   ("h7h6", "h6"); ("g7g6", "g6"); ("f7f6", "f6"); ("d7d6", "d6");
   ("c7c6", "c6"); ("b7b6", "b6"); ("a7a6", "a6"); ("e5e4", "e4");
   ("h7h5", "h5"); ("g7g5", "g5"); ("f7f5", "f5"); ("d7d5", "d5");
   ("c7c5", "c5"); ("b7b5", "b5"); ("a7a5", "a5")].

Record Entry : Type := {
  position : list string;
  code : string;
  moves : list (string * string)
}.

Definition table : list Entry :=
  [ {| position := []; code := "*"; moves := whites_first |};
    {| position := ["0000"]; code := "*"; moves := blacks_first |};
    {| position := ["e2e4"]; code := "*"; moves := blacks_first |};
    {| position := ["f2f3"]; code := "*"; moves := blacks_first |};
    {| position := ["f2f3"; "e7e5"]; code := "*"; moves := whites_second |};
    {| position := ["f2f3"; "e7e5"; "g2g4"]; code := "*"; moves := blacks_second |};
    {| position := ["f2f3"; "e7e5"; "g2g4"; "d8h4"]; code := "0-1"; moves := [] |} ].

Fixpoint stack_eqb (a b : list string) : bool :=
  match a, b with
  | [], [] => true
  | x :: a', y :: b' => String.eqb x y && stack_eqb a' b'
  | _, _ => false
  end.

Definition entry (b : list string) : Entry :=
  match find (fun e => stack_eqb (position e) b) table with
  | Some e => e
  | None => {| position := b; code := "1/2-1/2"; moves := [] |}
  end.

Definition legal (b : list string) : list string := map fst (moves (entry b)).

Definition null_move : string := "0000".

Definition san_of (b : list string) (m : string) : string :=
  match find (fun p => String.eqb (fst p) m) (moves (entry b)) with
  | Some p => snd p
  | None => "--"
  end.

Definition parse (b : list string) (s : string) : res string :=
  if String.eqb s "--" then Ok null_move
  else match find (fun m => String.eqb (san_of b m) s) (legal b) with
       | Some m => Ok m
       | None => Raise (ValueError ("invalid or illegal san: " ^^ s))
       end.

Definition uci (s : string) : res string :=
  if Nat.eqb (String.length s) 4 || Nat.eqb (String.length s) 5 then Ok s
  else Raise (ValueError ("invalid uci: " ^^ s)).

Definition engine : Engine :=
  {| Board := list string;
     Move := string;
     new_board := [];
     turn := fun b => if Nat.even (length b) then WHITE else BLACK;
     legal_moves := legal;
     contains := fun b m => existsb (String.eqb m) (legal b);
     is_game_over := fun b => match legal b with [] => true | _ => false end;
     result := fun b => code (entry b);
     san := san_of;
     parse_san := parse;
     from_uci := uci;
     push := fun b m => (b ++ [m])%list;
     null := null_move |}.

(** A model service that always selects the given text. *)
Definition says (s : string) : Client := fun _ => ToolCall (Loaded (PyStr s)).

(** A model service that is down. *)
Definition down : Client := fun _ => ApiRaises (Exception "Connection error.").

(** Fool's mate, with two rejected inputs on the way. *)
Definition fools_mate : Run engine :=
  play_chess engine 10 ["f3"; "zzz"; "e2e5"; "g2g4"] [says "e5"; says "Qh4#"].

Lemma entry_listed (b : list string) :
  In (entry b) table \/ moves (entry b) = [].
Proof.
  unfold entry.
  destruct (find _ table) as [e|] eqn:F.
  - left. apply find_some in F. tauto.
  - right. reflexivity.
Qed.

Lemma table_no_null :
  forallb (fun e => negb (existsb (String.eqb null_move) (map fst (moves e)))) table = true.
Proof. vm_compute. reflexivity. Qed.

Lemma legal_no_null (b : list string) : ~ In null_move (legal b).
Proof.
  unfold legal. destruct (entry_listed b) as [H | H].
  - pose proof table_no_null as T.
    rewrite forallb_forall in T. specialize (T _ H).
    apply negb_true_iff in T. intro I.
    assert (X : existsb (String.eqb null_move) (map fst (moves (entry b))) = true).
    { apply existsb_exists. exists null_move. split; [exact I | apply String.eqb_refl]. }
    congruence.
  - rewrite H. simpl. tauto.
Qed.

Lemma contract : Contract engine.
Proof.
  constructor; simpl.
  - intros b m. rewrite existsb_exists. split.
    + intros [x [I Q]]. apply String.eqb_eq in Q. subst. exact I.
    + intros I. exists m. split; [exact I | apply String.eqb_refl].
  - intros b H. destruct (legal b); congruence.
  - intros b s m. unfold parse.
    destruct (String.eqb s "--").
    + intros Q. right. congruence.
    + destruct (find _ (legal b)) as [x|] eqn:F; intros Q; [| discriminate].
      left. apply find_some in F. injection Q as <-. tauto.
  - intros b. reflexivity.
  - intros b s e. unfold parse.
    destruct (String.eqb s "--"); [discriminate |].
    destruct (find _ (legal b)); [discriminate |].
    intros Q. injection Q as <-. eauto.
  - intros s e. unfold uci.
    destruct (_ || _); [discriminate |].
    intros Q. injection Q as <-. eauto.
  - intros b m. rewrite length_app. simpl.
    rewrite Nat.add_1_r, Nat.even_succ, <- Nat.negb_even.
    destruct (Nat.even (length b)); reflexivity.
  - exact legal_no_null.
  - reflexivity.
  - reflexivity.
Qed.

End Book.

(** * Properties *)

(** ** Strings *)

Lemma append_nil_r (s : string) : s ^^ EmptyString = s.
Proof. induction s as [| c s IH]; simpl; [reflexivity | now rewrite IH]. Qed.

Lemma append_assoc (s t u : string) : (s ^^ t) ^^ u = s ^^ t ^^ u.
Proof. induction s as [| c s IH]; simpl; [reflexivity | now rewrite IH]. Qed.

(** ** The transcript *)

Lemma move_string_step_piece (acc : string) (im : nat * string) :
  move_string_step acc im = acc ^^ transcript_piece im.
Proof.
  destruct im as [i move]. unfold move_string_step, transcript_piece. simpl.
  destruct (Nat.even i); reflexivity.
Qed.

Lemma fold_move_string_step (l : list (nat * string)) (acc : string) :
  fold_left move_string_step l acc
  = acc ^^ fold_right String.append EmptyString (map transcript_piece l).
Proof.
  revert acc. induction l as [| im l IH]; intros acc; simpl.
  - now rewrite append_nil_r.
  - rewrite IH, move_string_step_piece. apply append_assoc.
Qed.

Lemma move_string_loop_transcript (h : list string) :
  move_string_loop h = transcript h.
Proof. unfold move_string_loop. now rewrite fold_move_string_step. Qed.

(** C6: the string built by the loop of [get_gpt4_move] is, for every move
    history, the concatenation of one piece per move, "N. san " for the
    move at even index i with N = i/2 + 1 and "san " for a move at odd
    index; the transcript sent is that string, followed by the number of
    the coming move when White is to move and the history is not empty, and
    the prompt is the transcript after the opening sentence. *)
Theorem transcript_built (E : Engine) (b : Board E) (h : list string) :
  move_string_loop h = transcript h /\
  move_string E b h
  = transcript h ^^ (match turn E b, h with
                     | WHITE, _ :: _ => str_nat (length h / 2 + 1) ^^ ". "
                     | _, _ => EmptyString
                     end) /\
  prompt_of E b h = "Let's play chess. " ^^ move_string E b h /\
  transcript ["e4"; "e5"; "Nf3"]%string = "1. e4 e5 2. Nf3 "%string.
Proof.
  split; [apply move_string_loop_transcript |].
  split; [| split; reflexivity].
  unfold move_string. rewrite move_string_loop_transcript.
  destruct (turn E b), h; try reflexivity; now rewrite append_nil_r.
Qed.

(** ** [get_gpt4_move] *)

Section Advisor.

Variable E : Engine.

Lemma pushes_app (l1 l2 : list (Event E)) :
  pushes (l1 ++ l2) = pushes l1 ++ pushes l2.
Proof.
  induction l1 as [| e l1 IH]; simpl; [reflexivity |].
  destruct e; simpl; now rewrite IH.
Qed.

Lemma appended_app (l1 l2 : list (Event E)) :
  appended (l1 ++ l2) = appended l1 ++ appended l2.
Proof.
  induction l1 as [| e l1 IH]; simpl; [reflexivity |].
  destruct e; simpl; now rewrite IH.
Qed.

Lemma requests_app (l1 l2 : list (Event E)) :
  requests (l1 ++ l2) = requests l1 ++ requests l2.
Proof.
  induction l1 as [| e l1 IH]; simpl; [reflexivity |].
  destruct e; simpl; now rewrite IH.
Qed.

(** The [try] body only prints. *)
Lemma try_model_quiet (client : Client) (b : Board E) (req : Request) :
  pushes (fst (try_model E client b req)) = [] /\
  appended (fst (try_model E client b req)) = [] /\
  requests (fst (try_model E client b req)) = [].
Proof.
  unfold try_model.
  destruct (client req) as [e | | [e | v]]; simpl; auto.
Qed.

(** The function sends one request, pushes nothing and appends nothing. *)
Lemma get_gpt4_move_effects (client : Client) (b : Board E) (h : list string) :
  pushes (fst (get_gpt4_move E client b h)) = [] /\
  appended (fst (get_gpt4_move E client b h)) = [] /\
  requests (fst (get_gpt4_move E client b h)) = [request_of E b h].
Proof.
  unfold get_gpt4_move.
  destruct (try_model_quiet client b (request_of E b h)) as (P & A & R).
  destruct (try_model E client b (request_of E b h)) as [evs [m | e]];
    simpl in *; rewrite ?pushes_app, ?appended_app, ?requests_app, P, A, R;
    auto.
Qed.

(** The answer depends on the service only through what it returns for the
    request built from the board and the history. *)
Lemma get_gpt4_move_client (client client' : Client) (b : Board E) (h : list string) :
  client (request_of E b h) = client' (request_of E b h) ->
  get_gpt4_move E client b h = get_gpt4_move E client' b h.
Proof.
  intros Q. unfold get_gpt4_move, try_model. now rewrite Q.
Qed.

Lemma get_gpt4_move_fallback (client : Client) (b : Board E) (h : list string) :
  failed b (client (request_of E b h)) ->
  snd (get_gpt4_move E client b h) = first_legal E b.
Proof.
  unfold get_gpt4_move, try_model, failed.
  destruct (client (request_of E b h)) as [e | | [e | v]]; simpl; auto.
  - intros _. destruct (first_legal E b); reflexivity.
  - intros [e Q]. rewrite Q. reflexivity.
Qed.

Lemma get_gpt4_move_selected (client : Client) (b : Board E) (h : list string)
  (v : PyVal) (m : Move E) :
  client (request_of E b h) = ToolCall (Loaded v) ->
  parse_chosen E b v = Ok m ->
  snd (get_gpt4_move E client b h) = Ok m.
Proof.
  intros Q P. unfold get_gpt4_move, try_model. rewrite Q, P. reflexivity.
Qed.

Hypothesis C : Contract E.

Lemma first_legal_head (b : Board E) :
  is_game_over E b = false ->
  exists m, first_legal E b = Ok m /\ hd_error (legal_moves E b) = Some m /\
            In m (legal_moves E b).
Proof.
  intros H. apply (playable E C) in H. unfold first_legal.
  destruct (legal_moves E b) as [| m l]; [congruence |].
  exists m. simpl. auto.
Qed.

(** On a board that is not over the function returns a move, and that move
    is legal or the null move. *)
Lemma get_gpt4_move_returns (client : Client) (b : Board E) (h : list string) :
  is_game_over E b = false ->
  exists m, snd (get_gpt4_move E client b h) = Ok m /\
            (In m (legal_moves E b) \/ m = null E).
Proof.
  intros H. destruct (first_legal_head b H) as (m0 & F & _ & I).
  unfold get_gpt4_move, try_model.
  destruct (client (request_of E b h)) as [e | | [e | v]]; simpl;
    rewrite ?F; simpl; eauto.
  destruct v as [| s | r]; simpl; rewrite ?F; eauto.
  destruct (parse_san E b s) as [m | e] eqn:P; simpl; rewrite ?F; eauto.
  exists m. split; [reflexivity |]. eapply parse_san_sound; eauto.
Qed.

End Advisor.

(** C8: [get_gpt4_move] sends exactly one request, the one built from the
    board and the history; the [enum] of that request is the list of the SAN
    renderings of the legal moves of the board, in enumeration order, so a
    text is in the [enum] exactly when it is the SAN of a legal move; and
    the answer depends on the service only through its reply to that
    request.  The same holds of the one pass of the loop body the model's
    turn makes. *)
Theorem enum_is_legal_san (E : Engine) (client : Client) (st : State E) :
  let b := board st in
  let req := request_of E b (move_history st) in
  requests (fst (get_gpt4_move E client b (move_history st))) = [req] /\
  requests (iter_events (model_turn E client st)) = [req] /\
  req_enum req = map (san E b) (legal_moves E b) /\
  (forall s, In s (req_enum req) <-> exists m, In m (legal_moves E b) /\ san E b m = s) /\
  (forall client', client' req = client req ->
     get_gpt4_move E client' b (move_history st)
     = get_gpt4_move E client b (move_history st)).
Proof.
  intros b req.
  destruct (get_gpt4_move_effects E client b (move_history st)) as (P & A & R).
  split; [exact R |].
  split.
  - unfold model_turn. fold b.
    destruct (get_gpt4_move E client b (move_history st)) as [evs [m | e]];
      simpl in *; rewrite ?requests_app, R; reflexivity.
  - split; [reflexivity |]. split.
    + intros s. simpl. unfold legal_moves_san. rewrite in_map_iff.
      split; intros [m [H1 H2]]; exists m; auto.
    + intros client' Q. apply get_gpt4_move_client. exact Q.
Qed.

(** ** The game loop *)

Section Loop.

Variable E : Engine.

(** Order of the two notations. *)
Lemma read_move_san_first (b : Board E) (s : string) (m : Move E) :
  parse_san E b s = Ok m -> read_move E b s = Chosen m.
Proof. intros P. unfold read_move. now rewrite P. Qed.

Lemma read_move_uci_second (b : Board E) (s msg : string) (m : Move E) :
  parse_san E b s = Raise (ValueError msg) ->
  from_uci E s = Ok m ->
  read_move E b s = if contains E b m then Chosen m else Rejected illegal_msg.
Proof. intros P U. unfold read_move. now rewrite P, U. Qed.

Lemma read_move_invalid (b : Board E) (s msg msg' : string) :
  parse_san E b s = Raise (ValueError msg) ->
  from_uci E s = Raise (ValueError msg') ->
  read_move E b s = Rejected invalid_msg.
Proof. intros P U. unfold read_move. now rewrite P, U. Qed.

(** Only an exception that is not a [ValueError] gets past both handlers. *)
Lemma read_move_escaped (b : Board E) (s : string) (e : exn) :
  read_move E b s = Escaped e -> exists msg, e = Exception msg.
Proof.
  unfold read_move.
  destruct (parse_san E b s) as [m | [msg | msg]]; try discriminate.
  - destruct (from_uci E s) as [m | [msg' | msg']]; try discriminate.
    + destruct (contains E b m); discriminate.
    + intros Q. injection Q as <-. eauto.
  - intros Q. injection Q as <-. eauto.
Qed.

Lemma human_turn_chosen (st : State E) (s : string) (m : Move E) :
  read_move E (board st) s = Chosen m ->
  exists evs, human_turn E st s = Applied (after st m) evs /\
              pushes evs = [ply Human st m] /\
              appended evs = [san E (board st) m].
Proof.
  intros R. unfold human_turn. rewrite R. simpl.
  eexists. split; [reflexivity |]. split; reflexivity.
Qed.

Lemma human_turn_rejected (st : State E) (s msg : string) :
  read_move E (board st) s = Rejected msg ->
  human_turn E st s = Retry [Print msg].
Proof. intros R. unfold human_turn. now rewrite R. Qed.

Lemma human_turn_ok (st : State E) (s : string) :
  iter_ok Human st (human_turn E st s).
Proof.
  unfold human_turn.
  destruct (read_move E (board st) s) as [m | msg | e] eqn:R; simpl.
  - exists m. auto.
  - auto.
  - split; [reflexivity | split; [reflexivity |]].
    eapply read_move_escaped; eauto.
Qed.

Lemma first_legal_raises (b : Board E) (e : exn) :
  first_legal E b = Raise e -> exists msg, e = Exception msg.
Proof.
  unfold first_legal. destruct (legal_moves E b); [| discriminate].
  intros Q. injection Q as <-. eauto.
Qed.

Lemma get_gpt4_move_raises (client : Client) (b : Board E) (h : list string) (e : exn) :
  snd (get_gpt4_move E client b h) = Raise e -> exists msg, e = Exception msg.
Proof.
  unfold get_gpt4_move.
  destruct (try_model E client b (request_of E b h)) as [evs [m | e']]; simpl.
  - discriminate.
  - apply first_legal_raises.
Qed.

Lemma model_turn_ok (client : Client) (st : State E) :
  iter_ok Model st (model_turn E client st).
Proof.
  unfold model_turn.
  destruct (get_gpt4_move_effects E client (board st) (move_history st)) as (P & A & _).
  pose proof (get_gpt4_move_raises client (board st) (move_history st)) as X.
  destruct (get_gpt4_move E client (board st) (move_history st)) as [evs [m | e]];
    simpl in *.
  - exists m. rewrite !pushes_app, !appended_app, P, A. simpl. auto.
  - rewrite P, A. auto.
Qed.

Lemma line_app (b b1 b2 : Board E) (ps qs : list (Ply E)) :
  line b ps b1 -> line b1 qs b2 -> line b (ps ++ qs) b2.
Proof.
  revert b. induction ps as [| p ps IH]; intros b; simpl.
  - intros ->. auto.
  - intros [Q L] L'. split; [exact Q |]. eapply IH; eauto.
Qed.

Lemma logged_stop (st : State E) (s : Status) :
  logged st {| status := s; final := st; trace := [] |}.
Proof.
  unfold logged. simpl. rewrite app_nil_r. auto.
Qed.

Lemma logged_quiet (st : State E) (evs : list (Event E)) (r : Run E) :
  pushes evs = [] -> appended evs = [] ->
  logged st r -> logged st (before E evs r).
Proof.
  intros P A (L & H & Ap & W). unfold logged, before. simpl.
  rewrite pushes_app, appended_app, P, A. simpl. auto.
Qed.

Lemma logged_step (who : Player) (st : State E) (m : Move E)
  (evs : list (Event E)) (r : Run E) :
  who = player_of (turn E (board st)) ->
  pushes evs = [ply who st m] -> appended evs = [san E (board st) m] ->
  logged (after st m) r -> logged st (before E evs r).
Proof.
  intros Wh P A (L & H & Ap & W). unfold logged, before. simpl.
  rewrite pushes_app, appended_app, P, A. simpl in *.
  repeat split; auto.
  - rewrite H, <- app_assoc. reflexivity.
  - unfold ply_san at 1. simpl. now rewrite Ap.
Qed.

Lemma logged_stop_quiet (st : State E) (s : Status) (evs : list (Event E)) :
  pushes evs = [] -> appended evs = [] ->
  logged st {| status := s; final := st; trace := evs |}.
Proof.
  intros P A. unfold logged. simpl. rewrite P, A. simpl.
  rewrite app_nil_r. auto.
Qed.

Lemma game_loop_logged (fuel : nat) :
  forall stdin api st, logged st (game_loop E fuel stdin api st).
Proof.
  induction fuel as [| fuel IH]; intros stdin api st; simpl.
  - destruct (is_game_over E (board st)); apply logged_stop.
  - destruct (is_game_over E (board st)); [apply logged_stop |].
    destruct (turn E (board st)) eqn:T.
    + destruct stdin as [| s stdin]; [apply logged_stop |].
      pose proof (human_turn_ok st s) as K.
      destruct (human_turn E st s) as [st' evs | evs | e evs]; simpl in K.
      * destruct K as (m & -> & P & A).
        apply (logged_step Human st m); [now rewrite T | exact P | exact A |].
        destruct (is_game_over E (board (after st m)));
          [apply logged_stop | apply IH].
      * destruct K as (P & A). apply logged_quiet; [exact P | exact A | apply IH].
      * destruct K as (P & A & _). apply logged_stop_quiet; [exact P | exact A].
    + destruct api as [| client api]; [apply logged_stop |].
      pose proof (model_turn_ok client st) as K.
      destruct (model_turn E client st) as [st' evs | evs | e evs]; simpl in K.
      * destruct K as (m & -> & P & A).
        apply (logged_step Model st m); [now rewrite T | exact P | exact A | apply IH].
      * destruct K as (P & A). apply logged_quiet; [exact P | exact A | apply IH].
      * destruct K as (P & A & _). apply logged_stop_quiet; [exact P | exact A].
Qed.

(** The loop is left only on a board that is over. *)
Lemma game_loop_finished (fuel : nat) :
  forall stdin api st,
    status (game_loop E fuel stdin api st) = Finished ->
    is_game_over E (board (final (game_loop E fuel stdin api st))) = true.
Proof.
  induction fuel as [| fuel IH]; intros stdin api st; simpl.
  - destruct (is_game_over E (board st)) eqn:G; simpl; [auto | discriminate].
  - destruct (is_game_over E (board st)) eqn:G; simpl; [auto |].
    destruct (turn E (board st)).
    + destruct stdin as [| s stdin]; simpl; [discriminate |].
      destruct (human_turn E st s) as [st' evs | evs | e evs]; simpl.
      * destruct (is_game_over E (board st')) eqn:G'; simpl; [auto | apply IH].
      * apply IH.
      * discriminate.
    + destruct api as [| client api]; simpl; [discriminate |].
      destruct (model_turn E client st) as [st' evs | evs | e evs]; simpl.
      * apply IH.
      * apply IH.
      * discriminate.
Qed.

(** No [ValueError] leaves the loop. *)
Lemma game_loop_raises (fuel : nat) :
  forall stdin api st e,
    status (game_loop E fuel stdin api st) = Raised e ->
    exists msg, e = Exception msg.
Proof.
  induction fuel as [| fuel IH]; intros stdin api st e; simpl.
  - destruct (is_game_over E (board st)); discriminate.
  - destruct (is_game_over E (board st)); [discriminate |].
    destruct (turn E (board st)).
    + destruct stdin as [| s stdin]; [discriminate |].
      pose proof (human_turn_ok st s) as K.
      destruct (human_turn E st s) as [st' evs | evs | e' evs]; simpl in *.
      * destruct (is_game_over E (board st')); [discriminate | apply IH].
      * apply IH.
      * destruct K as (_ & _ & X). intros Q. injection Q as <-. exact X.
    + destruct api as [| client api]; [discriminate |].
      pose proof (model_turn_ok client st) as K.
      destruct (model_turn E client st) as [st' evs | evs | e' evs]; simpl in *.
      * apply IH.
      * apply IH.
      * destruct K as (_ & _ & X). intros Q. injection Q as <-. exact X.
Qed.

End Loop.

(** ** [play_chess] *)

Section Game.

Variable E : Engine.

Lemma report_quiet (code : string) :
  pushes (report E code) = [] /\ appended (report E code) = [].
Proof. split; reflexivity. Qed.

(** The pushes and appends of a game are those of its loop. *)
Lemma play_chess_log (fuel : nat) (stdin : list string) (api : list Client) :
  pushes (trace (play_chess E fuel stdin api))
  = pushes (trace (game_loop E fuel stdin api (initial E))) /\
  appended (trace (play_chess E fuel stdin api))
  = appended (trace (game_loop E fuel stdin api (initial E))) /\
  final (play_chess E fuel stdin api)
  = final (game_loop E fuel stdin api (initial E)) /\
  status (play_chess E fuel stdin api)
  = status (game_loop E fuel stdin api (initial E)).
Proof.
  unfold play_chess.
  destruct (status (game_loop E fuel stdin api (initial E))) eqn:S; simpl;
    rewrite ?pushes_app, ?appended_app; simpl; rewrite ?app_nil_r; auto.
Qed.

Lemma play_chess_logged (fuel : nat) (stdin : list string) (api : list Client) :
  logged (initial E) (play_chess E fuel stdin api).
Proof.
  destruct (play_chess_log fuel stdin api) as (P & A & F & _).
  destruct (game_loop_logged E fuel stdin api (initial E)) as (L & H & Ap & W).
  unfold logged. rewrite P, A, F. auto.
Qed.

Hypothesis C : Contract E.

(** Along a line of play in which each push is made by the player of the
    side to move, the players take turns. *)
Lemma line_alternates (ps : list (Ply E)) :
  forall b b',
    line b ps b' ->
    Forall (fun p => ply_who p = player_of (turn E (ply_before p))) ps ->
    map ply_who ps = alternating (player_of (turn E b)) (length ps).
Proof.
  induction ps as [| p ps IH]; intros b b' L W; simpl; [reflexivity |].
  destruct L as [Q L]. inversion W as [| ? ? Wp Wps]; subst.
  rewrite Wp. f_equal.
  rewrite (IH _ _ L Wps), (turn_push E C).
  destruct (turn E (ply_before p)); reflexivity.
Qed.

End Game.

(** C10: in a game every move is pushed by the human exactly when White is
    to move on the board it is pushed on, and by the model exactly when
    Black is; the players of the successive moves are the human, the model,
    the human, and so on. *)
Theorem sides_fixed_and_alternate (E : Engine) (C : Contract E) (fuel : nat)
  (stdin : list string) (api : list Client) :
  let ps := pushes (trace (play_chess E fuel stdin api)) in
  Forall (fun p => (ply_who p = Human <-> turn E (ply_before p) = WHITE) /\
                   (ply_who p = Model <-> turn E (ply_before p) = BLACK)) ps /\
  map ply_who ps = alternating Human (length ps).
Proof.
  intros ps.
  destruct (play_chess_logged E fuel stdin api) as (L & _ & _ & W).
  fold ps in L, W. split.
  - eapply Forall_impl; [| exact W]. simpl. intros p Q. rewrite Q.
    destruct (turn E (ply_before p)); simpl; split; split;
      intros; congruence.
  - rewrite (line_alternates E C ps _ _ L W). simpl.
    now rewrite (new_board_white E C).
Qed.

Lemma sides_fixed_and_alternate_witness :
  let ps := pushes (trace Book.fools_mate) in
  Forall (fun p => (ply_who p = Human <-> turn Book.engine (ply_before p) = WHITE) /\
                   (ply_who p = Model <-> turn Book.engine (ply_before p) = BLACK)) ps /\
  map ply_who ps = [Human; Model; Human; Model].
Proof.
  exact (sides_fixed_and_alternate Book.engine Book.contract 10
           ["f3"; "zzz"; "e2e5"; "g2g4"]%string
           [Book.says "e5"; Book.says "Qh4#"]).
Defined.

(** C4: when the loop has been left the board is over, and the game ends by
    printing the result code of the board and its reading: a win of White
    (the human) for ["1-0"], a win of Black (the model) for ["0-1"], a draw
    for every other code. *)
Theorem result_classified (E : Engine) (fuel : nat) (stdin : list string)
  (api : list Client) (S : status (play_chess E fuel stdin api) = Finished) :
  let g := play_chess E fuel stdin api in
  let code := result E (board (final g)) in
  is_game_over E (board (final g)) = true /\
  exists pre verdict,
    trace g = pre ++ [Print (nl ^^ "Game over!"); Print ("Result: " ^^ code);
                      Print verdict] /\
    (code = "1-0"%string -> verdict = "You (White) won!"%string) /\
    (code = "0-1"%string -> verdict = "GPT-4o (Black) won!"%string) /\
    (code <> "1-0"%string -> code <> "0-1"%string -> verdict = "It's a draw!"%string).
Proof.
  intros g code. subst g code.
  destruct (play_chess_log E fuel stdin api) as (_ & _ & F & St).
  rewrite S in St. symmetry in St.
  split.
  - rewrite F. apply game_loop_finished. exact St.
  - rewrite F. unfold play_chess. rewrite St. simpl.
    set (code := result E (board (final (game_loop E fuel stdin api (initial E))))).
    eexists (_ :: _ :: _ :: trace (game_loop E fuel stdin api (initial E))), _.
    split; [simpl; reflexivity |].
    repeat split.
    + intros ->. reflexivity.
    + intros ->. reflexivity.
    + intros N1 N2. apply String.eqb_neq in N1, N2. now rewrite N1, N2.
Qed.

Lemma result_classified_witness :
  status Book.fools_mate = Finished /\
  exists pre,
    trace Book.fools_mate
    = pre ++ [Print (nl ^^ "Game over!"); Print "Result: 0-1";
              Print "GPT-4o (Black) won!"].
Proof.
  assert (S : status Book.fools_mate = Finished) by (vm_compute; reflexivity).
  split; [exact S |].
  destruct (result_classified Book.engine 10 _ _ S)
    as (_ & pre & verdict & T & _ & B & _).
  exists pre. rewrite <- (B eq_refl). exact T.
Defined.

(** ** Start-up *)

(** No [ValueError] leaves [play_chess], so the handler under
    [if __name__ == "__main__"] never runs. *)
Lemma play_chess_raises (E : Engine) (fuel : nat) (stdin : list string)
  (api : list Client) (e : exn) :
  status (play_chess E fuel stdin api) = Raised e -> exists msg, e = Exception msg.
Proof.
  destruct (play_chess_log E fuel stdin api) as (_ & _ & _ & St).
  rewrite St. apply game_loop_raises.
Qed.

Lemma main_handler_idle (E : Engine) (api_key : option string)
  (is_main : bool) (fuel : nat) (stdin : list string) (api : list Client) :
  snd (main E api_key is_main fuel stdin api) = []
  \/ snd (main E api_key is_main fuel stdin api) = trace (play_chess E fuel stdin api).
Proof.
  unfold main. destruct (key_absent api_key); [now left |].
  destruct is_main; [| now left].
  pose proof (play_chess_raises E fuel stdin api) as X.
  destruct (status (play_chess E fuel stdin api)) as [| e |]; simpl; auto.
  destruct (X e eq_refl) as [msg ->]. now right.
Qed.

(** C9: when the credential is absent from the environment (unset, or set
    to the empty string) the run ends at once with an uncaught [ValueError]:
    nothing of the game has happened, and what the user is shown is the
    exception's message, which names the variable and tells to set it
    before running the program. *)
Theorem missing_key_fatal (E : Engine) (api_key : option string) (is_main : bool)
  (fuel : nat) (stdin : list string) (api : list Client)
  (A : key_absent api_key = true) :
  main E api_key is_main fuel stdin api
  = (Uncaught (ValueError missing_key_msg), []) /\
  traceback_last (ValueError missing_key_msg)
  = "ValueError: OPENAI_API_KEY environment variable is not set. Please set it before running the program."%string.
Proof.
  unfold main. rewrite A. split; reflexivity.
Qed.

Lemma missing_key_fatal_witness :
  main Book.engine None true 10 ["e4"]%string [Book.says "e5"]
  = (Uncaught (ValueError missing_key_msg), []).
Proof.
  exact (proj1 (missing_key_fatal Book.engine None true 10 ["e4"]%string
                  [Book.says "e5"] eq_refl)).
Defined.

(** ** Rejected input *)

Section Reprompt.

Variable E : Engine.

Lemma before_nil (r : Run E) : before E [] r = r.
Proof. destruct r. reflexivity. Qed.

Lemma before_app (l1 l2 : list (Event E)) (r : Run E) :
  before E (l1 ++ l2) r = before E l1 (before E l2 r).
Proof. unfold before. simpl. now rewrite app_assoc. Qed.

(** Any number of rejected lines in a row leaves the board and the history
    as they were: the loop shows each rejection and goes on reading, from
    the same state. *)
Lemma game_loop_reprompts (bad : list string) :
  forall fuel stdin api st,
    is_game_over E (board st) = false ->
    turn E (board st) = WHITE ->
    Forall (fun s => exists msg, read_move E (board st) s = Rejected msg) bad ->
    game_loop E (length bad + fuel) (bad ++ stdin) api st
    = before E (flat_map (rejection (board st)) bad) (game_loop E fuel stdin api st).
Proof.
  induction bad as [| s bad IH]; intros fuel stdin api st G T B.
  - simpl. now rewrite before_nil.
  - inversion B as [| ? ? [msg R] B']; subst.
    cbn [length Nat.add app game_loop flat_map]. rewrite G, T.
    rewrite (human_turn_rejected E st s msg R).
    rewrite (IH fuel stdin api st G T B').
    unfold rejection at 2. rewrite R.
    unfold before. simpl. reflexivity.
Qed.

End Reprompt.

(** ** The null move *)

Section NullMove.

Variable E : Engine.
Hypothesis C : Contract E.

Lemma read_move_null (b : Board E) : read_move E b "--" = Chosen (null E).
Proof. apply read_move_san_first. apply (parse_san_null E C). Qed.

(** On the coordinate path the same move is turned away by the membership
    test. *)
Lemma uci_null_rejected (b : Board E) (s msg : string) :
  parse_san E b s = Raise (ValueError msg) ->
  from_uci E s = Ok (null E) ->
  read_move E b s = Rejected illegal_msg.
Proof.
  intros P U. rewrite (read_move_uci_second E b s msg (null E) P U).
  destruct (contains E b (null E)) eqn:K; [| reflexivity].
  apply (contains_spec E C) in K. now apply (null_illegal E C) in K.
Qed.

End NullMove.

(** C1: on a failure of the model call [get_gpt4_move] returns
    [list(board.legal_moves)[0]], but it does not return a legal move in
    every case: when the reply selects the text [--], [parse_san] hands
    back the null move, which is returned although it is not a legal
    move. *)
Theorem get_gpt4_move_null_selection (E : Engine) (C : Contract E)
  (client : Client) (b : Board E) (h : list string)
  (R : client (request_of E b h) = ToolCall (Loaded (PyStr "--"))) :
  snd (get_gpt4_move E client b h) = Ok (null E) /\
  ~ In (null E) (legal_moves E b).
Proof.
  split; [| apply (null_illegal E C)].
  apply (get_gpt4_move_selected E client b h (PyStr "--")); [exact R |].
  simpl. apply (parse_san_null E C).
Qed.

Lemma get_gpt4_move_null_selection_witness :
  snd (get_gpt4_move Book.engine (Book.says "--") ["e2e4"]%string ["e4"]%string)
  = Ok "0000"%string /\
  ~ In "0000"%string (legal_moves Book.engine ["e2e4"]%string).
Proof.
  exact (get_gpt4_move_null_selection Book.engine Book.contract
           (Book.says "--") ["e2e4"]%string ["e4"]%string eq_refl).
Defined.

(** C2: the input [--] parses under standard notation as the null move;
    the null move is not in the legal move set, and it is applied: the
    human's turn pushes it on the board. *)
Theorem null_san_applied (E : Engine) (C : Contract E) (st : State E) :
  ~ In (null E) (legal_moves E (board st)) /\
  read_move E (board st) "--" = Chosen (null E) /\
  exists evs, human_turn E st "--" = Applied (after st (null E)) evs /\
              pushes evs = [ply Human st (null E)].
Proof.
  split; [apply (null_illegal E C) |].
  split; [apply (read_move_null E C) |].
  destruct (human_turn_chosen E st "--" (null E) (read_move_null E C (board st)))
    as (evs & H & P & _).
  exists evs. auto.
Qed.

Lemma null_san_applied_witness :
  exists evs,
    human_turn Book.engine (initial Book.engine) "--"
    = Applied (Build_State Book.engine ["0000"]%string ["--"]%string) evs.
Proof.
  destruct (null_san_applied Book.engine Book.contract (initial Book.engine))
    as (_ & _ & evs & H & _).
  exists evs. exact H.
Defined.

(** C3: a game in which the human first types [--] starts with the push of
    the null move on the opening board, where it is not a legal move. *)
Theorem null_move_pushed (E : Engine) (C : Contract E) (fuel : nat)
  (stdin : list string) (api : list Client) :
  hd_error (pushes (trace (play_chess E (S fuel) ("--"%string :: stdin) api)))
  = Some (ply Human (initial E) (null E)) /\
  ~ In (null E) (legal_moves E (new_board E)).
Proof.
  split; [| apply (null_illegal E C)].
  destruct (play_chess_log E (S fuel) ("--"%string :: stdin) api) as (P & _).
  rewrite P. cbn [game_loop initial board].
  rewrite (new_board_open E C), (new_board_white E C).
  destruct (human_turn_chosen E (initial E) "--" (null E)
              (read_move_null E C (new_board E))) as (evs & H & Pe & _).
  rewrite H. unfold before. cbn [trace].
  rewrite pushes_app. cbn [pushes]. rewrite Pe. reflexivity.
Qed.

Lemma null_move_pushed_witness :
  hd_error (pushes (trace (play_chess Book.engine 1 ["--"]%string [])))
  = Some {| ply_who := Human; ply_before := new_board Book.engine;
            ply_move := "0000"%string |}.
Proof.
  exact (proj1 (null_move_pushed Book.engine Book.contract 0 [] [])).
Defined.

(** C5: the input [--] yields no legal move, and yet the attempt is not
    turned away: the board passes to the other side and the history gets
    one more entry. *)
Theorem null_input_changes_state (E : Engine) (C : Contract E) (st : State E) :
  (forall m, In m (legal_moves E (board st)) ->
             read_move E (board st) "--" <> Chosen m) /\
  exists st' evs,
    human_turn E st "--" = Applied st' evs /\
    turn E (board st') = other (turn E (board st)) /\
    board st' <> board st /\
    length (move_history st') = S (length (move_history st)).
Proof.
  split.
  - intros m I. rewrite (read_move_null E C). intros Q. injection Q as <-.
    now apply (null_illegal E C) in I.
  - destruct (human_turn_chosen E st "--" (null E) (read_move_null E C (board st)))
      as (evs & H & _).
    exists (after st (null E)), evs.
    split; [exact H |]. simpl.
    assert (T : turn E (push E (board st) (null E)) = other (turn E (board st)))
      by apply (turn_push E C).
    split; [exact T |]. split.
    + intros Q. rewrite Q in T. destruct (turn E (board st)); discriminate.
    + rewrite length_app. simpl. lia.
Qed.

Lemma null_input_changes_state_witness :
  exists st' evs,
    human_turn Book.engine (initial Book.engine) "--" = Applied st' evs /\
    turn Book.engine (board st') = BLACK /\
    length (move_history st') = 1.
Proof.
  destruct (null_input_changes_state Book.engine Book.contract (initial Book.engine))
    as (_ & st' & evs & H & T & _ & L).
  exists st', evs. auto.
Defined.

(** ** Runs on the table engine *)

Example fools_mate_final :
  status Book.fools_mate = Finished /\
  final Book.fools_mate
  = Build_State Book.engine ["f2f3"; "e7e5"; "g2g4"; "d8h4"]%string
                ["f3"; "e5"; "g4"; "Qh4#"]%string.
Proof. vm_compute. split; reflexivity. Qed.

Example fallback_when_down :
  snd (get_gpt4_move Book.engine Book.down ["e2e4"]%string ["e4"]%string)
  = Ok "g8h6"%string.
Proof. reflexivity. Qed.

Example prompt_after_e4 :
  prompt_of Book.engine ["e2e4"]%string ["e4"]%string
  = "Let's play chess. 1. e4 "%string.
Proof. reflexivity. Qed.

Example two_rejections :
  trace (game_loop Book.engine 2 ["zzz"; "e2e5"]%string [] (initial Book.engine))
  = [Input input_prompt "zzz"; Print invalid_msg;
     Input input_prompt "e2e5"; Print illegal_msg].
Proof. reflexivity. Qed.

(** * Further properties *)

(** ** The transcript, move by move *)

Lemma enumerate_from_app {A : Type} (l l' : list A) :
  forall i, enumerate_from i (l ++ l')
            = enumerate_from i l ++ enumerate_from (i + length l) l'.
Proof.
  induction l as [| x l IH]; intros i; simpl.
  - now rewrite Nat.add_0_r.
  - rewrite IH. do 3 f_equal. lia.
Qed.

Lemma concat_pieces_app (l l' : list string) :
  fold_right String.append EmptyString (l ++ l')
  = fold_right String.append EmptyString l
    ^^ fold_right String.append EmptyString l'.
Proof.
  induction l as [| x l IH]; simpl; [reflexivity |].
  now rewrite IH, append_assoc.
Qed.

Lemma transcript_app_one (h : list string) (move : string) :
  transcript (h ++ [move])
  = transcript h ^^ (if Nat.even (length h)
                     then str_nat (length h / 2 + 1) ^^ ". " ^^ move ^^ " "
                     else move ^^ " ").
Proof.
  unfold transcript, enumerate.
  rewrite enumerate_from_app, map_app, concat_pieces_app.
  f_equal. cbn [enumerate_from map fold_right Nat.add].
  rewrite append_nil_r. reflexivity.
Qed.

(** X1: appending a move to the history appends one piece to the string
    the loop of [get_gpt4_move] builds: the move number, a dot and the
    notation when the history had an even number of moves, the notation
    alone when it had an odd number.  With Black to move, as in every call
    the game makes, the same holds of the whole transcript and so of the
    prompt. *)
Theorem transcript_snoc (E : Engine) (b b' : Board E) (h : list string)
  (move : string) :
  let piece := if Nat.even (length h)
               then str_nat (length h / 2 + 1) ^^ ". " ^^ move ^^ " "
               else move ^^ " " in
  move_string_loop (h ++ [move]) = move_string_loop h ^^ piece /\
  fold_left move_string_step (enumerate (h ++ [move])) EmptyString
  = move_string_step (fold_left move_string_step (enumerate h) EmptyString)
                     (length h, move) /\
  (turn E b = BLACK /\ turn E b' = BLACK ->
   move_string E b' (h ++ [move]) = move_string E b h ^^ piece /\
   prompt_of E b' (h ++ [move]) = prompt_of E b h ^^ piece).
Proof.
  intros piece. subst piece.
  assert (L : move_string_loop (h ++ [move])
              = move_string_loop h
                ^^ (if Nat.even (length h)
                    then str_nat (length h / 2 + 1) ^^ ". " ^^ move ^^ " "
                    else move ^^ " ")).
  { rewrite !move_string_loop_transcript. apply transcript_app_one. }
  split; [exact L |]. split.
  - unfold enumerate. rewrite enumerate_from_app, fold_left_app. reflexivity.
  - intros [T T']. unfold prompt_of, move_string. rewrite T, T'.
    cbv beta iota zeta. rewrite L. split; [reflexivity |].
    now rewrite append_assoc.
Qed.

(** ** [get_gpt4_move]: failures and selections *)

(** What the console shows for each kind of failure. *)
Lemma get_gpt4_move_announces (E : Engine) (client : Client) (b : Board E)
  (h : list string) :
  failed b (client (request_of E b h)) ->
  In (Print "Choosing a random legal move instead.")
     (fst (get_gpt4_move E client b h))
  \/ In (Print "GPT-4o didn't make a function call. Choosing randomly.")
        (fst (get_gpt4_move E client b h)).
Proof.
  unfold get_gpt4_move, try_model, failed.
  destruct (client (request_of E b h)) as [e | | [e | v]]; simpl.
  - intros _. left. do 5 right. now left.
  - intros _. destruct (first_legal E b); simpl.
    + right. do 4 right. now left.
    + right. do 4 right. now left.
  - intros _. left. do 5 right. now left.
  - intros [e Q]. rewrite Q. simpl. left. do 6 right. now left.
Qed.

(** X2: on a board that is not over, every failure of the model call (the call
    raises, the reply carries no tool call, the arguments cannot be decoded,
    the selection does not translate) ends in the first move of the legal
    move enumeration, which is returned and not raised, and the failure is
    announced on the console. *)
Theorem failure_falls_back (E : Engine) (C : Contract E) (client : Client)
  (b : Board E) (h : list string)
  (G : is_game_over E b = false)
  (F : failed b (client (request_of E b h))) :
  exists m,
    snd (get_gpt4_move E client b h) = Ok m /\
    hd_error (legal_moves E b) = Some m /\
    In m (legal_moves E b) /\
    (In (Print "Choosing a random legal move instead.")
        (fst (get_gpt4_move E client b h))
     \/ In (Print "GPT-4o didn't make a function call. Choosing randomly.")
           (fst (get_gpt4_move E client b h))).
Proof.
  destruct (first_legal_head E C b G) as (m & Q & H & I).
  exists m. rewrite (get_gpt4_move_fallback E client b h F).
  repeat split; auto.
  apply get_gpt4_move_announces. exact F.
Qed.

Lemma failure_falls_back_witness :
  exists m,
    snd (get_gpt4_move Book.engine Book.down ["e2e4"]%string ["e4"]%string) = Ok m /\
    hd_error (legal_moves Book.engine ["e2e4"]%string) = Some m.
Proof.
  destruct (failure_falls_back Book.engine Book.contract Book.down
              ["e2e4"]%string ["e4"]%string eq_refl I)
    as (m & Q & H & _).
  exists m. split; [exact Q | exact H].
Defined.

(** X3: on a board without a legal move a failure of the model call is not
    recovered: the fallback itself raises the index error, out of the
    handler. *)
Theorem failure_on_dead_board_raises (E : Engine) (client : Client)
  (b : Board E) (h : list string)
  (D : legal_moves E b = [])
  (F : failed b (client (request_of E b h))) :
  snd (get_gpt4_move E client b h) = Raise (Exception "list index out of range").
Proof.
  rewrite (get_gpt4_move_fallback E client b h F).
  unfold first_legal. now rewrite D.
Qed.

Lemma failure_on_dead_board_raises_witness :
  snd (get_gpt4_move Book.engine Book.down
         ["f2f3"; "e7e5"; "g2g4"; "d8h4"]%string
         ["f3"; "e5"; "g4"; "Qh4#"]%string)
  = Raise (Exception "list index out of range").
Proof.
  exact (failure_on_dead_board_raises Book.engine Book.down
           ["f2f3"; "e7e5"; "g2g4"; "d8h4"]%string
           ["f3"; "e5"; "g4"; "Qh4#"]%string eq_refl I).
Defined.

(** X4: when [parse_san] reads back the SAN of every legal move of the board,
    a selection taken from the [enum] of the request is played as such: the
    function returns a legal move whose SAN is the selected text. *)
Theorem selection_from_enum_played (E : Engine) (client : Client)
  (b : Board E) (h : list string) (s : string)
  (RT : forall m, In m (legal_moves E b) -> parse_san E b (san E b m) = Ok m)
  (R : client (request_of E b h) = ToolCall (Loaded (PyStr s)))
  (S : In s (req_enum (request_of E b h))) :
  exists m,
    snd (get_gpt4_move E client b h) = Ok m /\
    In m (legal_moves E b) /\
    san E b m = s.
Proof.
  simpl in S. unfold legal_moves_san in S. apply in_map_iff in S.
  destruct S as (m & Q & I). exists m.
  split; [| auto].
  apply (get_gpt4_move_selected E client b h (PyStr s)); [exact R |].
  simpl. rewrite <- Q. apply RT. exact I.
Qed.

Lemma selection_from_enum_played_witness :
  exists m,
    snd (get_gpt4_move Book.engine (Book.says "e5") ["e2e4"]%string ["e4"]%string)
    = Ok m /\
    san Book.engine ["e2e4"]%string m = "e5"%string.
Proof.
  assert (RT : forall m, In m (legal_moves Book.engine ["e2e4"]%string) ->
                         parse_san Book.engine ["e2e4"]%string
                           (san Book.engine ["e2e4"]%string m) = Ok m).
  { intros m H. vm_compute in H.
    repeat (destruct H as [<- | H]; [reflexivity |]). contradiction. }
  assert (S : In "e5"%string
                (req_enum (request_of Book.engine ["e2e4"]%string ["e4"]%string))).
  { vm_compute. tauto. }
  destruct (selection_from_enum_played Book.engine (Book.says "e5")
              ["e2e4"]%string ["e4"]%string "e5"%string RT eq_refl S)
    as (m & Q & _ & N).
  exists m. split; [exact Q | exact N].
Defined.

(** ** The loop: what is shown and sent *)

Section Shown.

Variable E : Engine.

Lemma displays_app (l1 l2 : list (Event E)) :
  displays (l1 ++ l2) = displays l1 ++ displays l2.
Proof.
  induction l1 as [| e l1 IH]; simpl; [reflexivity |].
  destruct e; simpl; now rewrite IH.
Qed.

Lemma printed_boards_app (l1 l2 : list (Event E)) :
  printed_boards (l1 ++ l2) = printed_boards l1 ++ printed_boards l2.
Proof.
  induction l1 as [| e l1 IH]; simpl; [reflexivity |].
  destruct e; simpl; now rewrite IH.
Qed.

(** [get_gpt4_move] shows no board. *)
Lemma get_gpt4_move_silent (client : Client) (b : Board E) (h : list string) :
  displays (fst (get_gpt4_move E client b h)) = [] /\
  printed_boards (fst (get_gpt4_move E client b h)) = [].
Proof.
  unfold get_gpt4_move, try_model.
  destruct (client (request_of E b h)) as [e | | [e | v]]; simpl.
  - auto.
  - destruct (first_legal E b); simpl; auto.
  - auto.
  - destruct (parse_chosen E b v); simpl; auto.
Qed.

Lemma human_turn_shows (st : State E) (s : string) :
  iter_shows Human [] st (human_turn E st s).
Proof.
  unfold human_turn.
  destruct (read_move E (board st) s) as [m | msg | e]; simpl.
  - exists m. repeat split; reflexivity.
  - auto.
  - auto.
Qed.

Lemma model_turn_shows (client : Client) (st : State E) :
  iter_shows Model [request_of E (board st) (move_history st)] st
             (model_turn E client st).
Proof.
  unfold model_turn.
  destruct (get_gpt4_move_effects E client (board st) (move_history st))
    as (P & _ & R).
  destruct (get_gpt4_move_silent client (board st) (move_history st)) as (D & B).
  destruct (get_gpt4_move E client (board st) (move_history st)) as [evs [m | e]];
    simpl in *.
  - exists m.
    rewrite !pushes_app, !displays_app, !printed_boards_app, !requests_app,
      P, D, B, R.
    simpl. repeat split; reflexivity.
  - rewrite P, D, B, R. auto.
Qed.

(** With Black to move the message of the request is the opening sentence
    and the transcript, with no move number after it. *)
Lemma prompt_black (b : Board E) (h : list string) :
  turn E b = BLACK ->
  req_content (request_of E b h) = header ^^ transcript h.
Proof.
  intros T. simpl. unfold prompt_of, move_string. rewrite T.
  now rewrite move_string_loop_transcript.
Qed.

Lemma prefix_firstn {A : Type} (h x : list A) : firstn (length h) (h ++ x) = h.
Proof.
  rewrite firstn_app, Nat.sub_diag, firstn_all. simpl. apply app_nil_r.
Qed.

Lemma rendered_stop (s : Status) (st : State E) (evs : list (Event E)) :
  pushes evs = [] -> displays evs = [] -> printed_boards evs = [] ->
  Forall (fun req => req_content req = header ^^ transcript (move_history st))
         (requests evs) ->
  rendered {| status := s; final := st; trace := evs |}.
Proof.
  intros P D B R. unfold rendered. simpl. rewrite P, D, B. simpl.
  repeat split; auto.
  eapply Forall_impl; [| exact R]. simpl. intros req Q.
  exists (length (move_history st)). now rewrite firstn_all.
Qed.

Lemma rendered_before (evs : list (Event E)) (r : Run E) (ps : list (Ply E)) :
  pushes evs = ps -> displays evs = map shown ps ->
  printed_boards evs = map ply_after ps ->
  Forall (fun p => is_game_over E (ply_before p) = false) ps ->
  Forall (fun req => exists k,
              req_content req
              = header ^^ transcript (firstn k (move_history (final r))))
         (requests evs) ->
  rendered r -> rendered (before E evs r).
Proof.
  intros P D B G R (D' & B' & G' & R'). unfold rendered, before. simpl.
  rewrite pushes_app, displays_app, printed_boards_app, requests_app, P, D, B.
  rewrite !map_app, D', B'.
  repeat split; auto; apply Forall_app; auto.
Qed.

Lemma game_loop_rendered (fuel : nat) :
  forall stdin api st, rendered (game_loop E fuel stdin api st).
Proof.
  induction fuel as [| fuel IH]; intros stdin api st; simpl.
  - destruct (is_game_over E (board st)); apply rendered_stop; auto.
  - destruct (is_game_over E (board st)) eqn:G; [apply rendered_stop; auto |].
    destruct (turn E (board st)) eqn:T.
    + destruct stdin as [| s stdin]; [apply rendered_stop; auto |].
      pose proof (human_turn_shows st s) as K.
      destruct (human_turn E st s) as [st' evs | evs | e evs]; simpl in K.
      * destruct K as (m & -> & P & D & B & R).
        apply (rendered_before _ _ [ply Human st m]);
          [exact P | exact D | exact B | | |].
        { constructor; [exact G | constructor]. }
        { cbn [requests]. rewrite R. constructor. }
        destruct (is_game_over E (board (after st m)));
          [apply rendered_stop; auto | apply IH].
      * destruct K as (P & D & B & R).
        apply (rendered_before _ _ []);
          [exact P | exact D | exact B | constructor | | apply IH].
        cbn [requests]. rewrite R. constructor.
      * destruct K as (P & D & B & R).
        apply rendered_stop; [exact P | exact D | exact B |].
        cbn [requests]. rewrite R. constructor.
    + destruct api as [| client api]; [apply rendered_stop; auto |].
      pose proof (model_turn_shows client st) as K.
      destruct (model_turn E client st) as [st' evs | evs | e evs]; simpl in K.
      * destruct K as (m & -> & P & D & B & R).
        apply (rendered_before _ _ [ply Model st m]);
          [exact P | exact D | exact B | | | apply IH].
        { constructor; [exact G | constructor]. }
        rewrite R. constructor; [| constructor].
        destruct (game_loop_logged E fuel stdin api (after st m)) as (_ & H & _).
        exists (length (move_history st)).
        rewrite H. simpl. rewrite <- !app_assoc, prefix_firstn.
        apply prompt_black. exact T.
      * destruct K as (P & D & B & R).
        apply (rendered_before _ _ []);
          [exact P | exact D | exact B | constructor | | apply IH].
        rewrite R. constructor; [| constructor].
        destruct (game_loop_logged E fuel stdin api st) as (_ & H & _).
        exists (length (move_history st)).
        rewrite H, prefix_firstn. apply prompt_black. exact T.
      * destruct K as (P & D & B & R).
        apply rendered_stop; [exact P | exact D | exact B |].
        rewrite R. constructor; [| constructor].
        apply prompt_black. exact T.
Qed.

End Shown.

(** ** The loop under the contract of the engine *)

Section Sound.

Variable E : Engine.
Hypothesis C : Contract E.

Lemma read_move_sound (b : Board E) (s : string) :
  match read_move E b s with
  | Chosen m => In m (legal_moves E b) \/ m = null E
  | Rejected _ => True
  | Escaped _ => False
  end.
Proof.
  unfold read_move.
  destruct (parse_san E b s) as [m | e] eqn:P.
  - eapply parse_san_sound; eauto.
  - destruct (parse_san_raises E C b s e P) as [msg ->].
    destruct (from_uci E s) as [m | e] eqn:U.
    + destruct (contains E b m) eqn:K; [| exact I].
      left. now apply (contains_spec E C).
    + destruct (from_uci_raises E C s e U) as [msg' ->]. exact I.
Qed.

Lemma human_turn_sound (st : State E) (s : string) :
  match human_turn E st s with
  | Applied st' evs =>
      exists m, st' = after st m /\ pushes evs = [ply Human st m] /\
                requests evs = [] /\
                (In m (legal_moves E (board st)) \/ m = null E)
  | Retry evs => pushes evs = [] /\ requests evs = []
  | Crash _ _ => False
  end.
Proof.
  pose proof (read_move_sound (board st) s) as K. unfold human_turn.
  destruct (read_move E (board st) s) as [m | msg | e]; simpl.
  - exists m. auto.
  - auto.
  - exact K.
Qed.

Lemma model_turn_sound (client : Client) (st : State E) :
  is_game_over E (board st) = false ->
  exists m evs,
    model_turn E client st = Applied (after st m) evs /\
    pushes evs = [ply Model st m] /\
    requests evs = [request_of E (board st) (move_history st)] /\
    (In m (legal_moves E (board st)) \/ m = null E).
Proof.
  intros G.
  destruct (get_gpt4_move_returns E C client (board st) (move_history st) G)
    as (m & Q & L).
  destruct (get_gpt4_move_effects E client (board st) (move_history st))
    as (P & _ & R).
  unfold model_turn.
  destruct (get_gpt4_move E client (board st) (move_history st)) as [evs r].
  simpl in *. subst r. exists m. eexists. split; [reflexivity |].
  cbn [pushes requests].
  rewrite !pushes_app, !requests_app, P, R. simpl. auto.
Qed.

Lemma sound_stop (s : Status) (st : State E) :
  s = Finished \/ s = Waiting ->
  sound_run {| status := s; final := st; trace := [] |}.
Proof. intros S. unfold sound_run. simpl. auto. Qed.

Lemma sound_before (evs : list (Event E)) (r : Run E) (ps : list (Ply E)) :
  pushes evs = ps ->
  Forall (fun p => In (ply_move p) (legal_moves E (ply_before p))
                   \/ ply_move p = null E) ps ->
  length (requests evs) = length (filter by_model ps) ->
  sound_run r -> sound_run (before E evs r).
Proof.
  intros P L R (S & L' & R'). unfold sound_run, before. simpl.
  rewrite pushes_app, requests_app, P, filter_app, !length_app.
  repeat split; auto. apply Forall_app. auto.
Qed.

Lemma game_loop_sound (fuel : nat) :
  forall stdin api st, sound_run (game_loop E fuel stdin api st).
Proof.
  induction fuel as [| fuel IH]; intros stdin api st; simpl.
  - destruct (is_game_over E (board st)); apply sound_stop; auto.
  - destruct (is_game_over E (board st)) eqn:G; [apply sound_stop; auto |].
    destruct (turn E (board st)) eqn:T.
    + destruct stdin as [| s stdin]; [apply sound_stop; auto |].
      pose proof (human_turn_sound st s) as K.
      destruct (human_turn E st s) as [st' evs | evs | e evs].
      * destruct K as (m & -> & P & R & L).
        apply (sound_before _ _ [ply Human st m]); [exact P | | |].
        { constructor; [exact L | constructor]. }
        { cbn [requests]. now rewrite R. }
        destruct (is_game_over E (board (after st m)));
          [apply sound_stop; auto | apply IH].
      * destruct K as (P & R).
        apply (sound_before _ _ []); [exact P | constructor | | apply IH].
        cbn [requests]. now rewrite R.
      * contradiction.
    + destruct api as [| client api]; [apply sound_stop; auto |].
      destruct (model_turn_sound client st G) as (m & evs & -> & P & R & L).
      apply (sound_before _ _ [ply Model st m]); [exact P | | | apply IH].
      * constructor; [exact L | constructor].
      * now rewrite R.
Qed.

End Sound.

(** ** A game from start to end *)

Section Whole.

Variable E : Engine.

Lemma play_chess_shown (fuel : nat) (stdin : list string) (api : list Client) :
  displays (trace (play_chess E fuel stdin api))
  = (new_board E, "Initial position"%string)
    :: displays (trace (game_loop E fuel stdin api (initial E))) /\
  printed_boards (trace (play_chess E fuel stdin api))
  = new_board E :: printed_boards (trace (game_loop E fuel stdin api (initial E))) /\
  requests (trace (play_chess E fuel stdin api))
  = requests (trace (game_loop E fuel stdin api (initial E))).
Proof.
  unfold play_chess.
  destruct (status (game_loop E fuel stdin api (initial E))); simpl;
    rewrite ?displays_app, ?printed_boards_app, ?requests_app; simpl;
    rewrite ?app_nil_r; auto.
Qed.

Lemma line_replay (ps : list (Ply E)) :
  forall b b', line b ps b' -> b' = fold_left (push E) (map ply_move ps) b.
Proof.
  induction ps as [| p ps IH]; intros b b'; simpl.
  - auto.
  - intros [Q L]. subst b. apply IH. exact L.
Qed.

End Whole.

(** X5: a line the human types is applied or turned away according to this
    table.  It is applied when it reads as standard notation (the move is
    then legal or the null move), or when it does not, reads as coordinate
    notation and the move is legal.  It is turned away as illegal when it
    reads only as coordinate notation and the move is not legal, and as
    badly formed when it reads as neither.  No exception leaves the two
    handlers. *)
Theorem read_move_table (E : Engine) (C : Contract E) (b : Board E) (s : string) :
  match read_move E b s with
  | Chosen m =>
      (parse_san E b s = Ok m /\ (In m (legal_moves E b) \/ m = null E))
      \/ ((exists e, parse_san E b s = Raise e) /\ from_uci E s = Ok m /\
          In m (legal_moves E b))
  | Rejected msg =>
      (exists e, parse_san E b s = Raise e) /\
      ((msg = illegal_msg /\
        exists m, from_uci E s = Ok m /\ ~ In m (legal_moves E b))
       \/ (msg = invalid_msg /\ exists e, from_uci E s = Raise e))
  | Escaped _ => False
  end.
Proof.
  unfold read_move.
  destruct (parse_san E b s) as [m | e] eqn:P.
  - left. split; [reflexivity |]. eapply parse_san_sound; eauto.
  - destruct (parse_san_raises E C b s e P) as [msg ->].
    destruct (from_uci E s) as [m | e] eqn:U.
    + destruct (contains E b m) eqn:K.
      * right. split; [eauto |]. split; [reflexivity |].
        now apply (contains_spec E C).
      * split; [eauto |]. left. split; [reflexivity |]. exists m.
        split; [reflexivity |]. intros H. apply (contains_spec E C) in H.
        congruence.
    + destruct (from_uci_raises E C s e U) as [msg' ->].
      split; [eauto |]. right. split; [reflexivity |]. eauto.
Qed.

Lemma read_move_table_witness :
  (exists e, parse_san Book.engine (new_board Book.engine) "e2e5" = Raise e) /\
  ((illegal_msg = illegal_msg /\
    exists m, from_uci Book.engine "e2e5" = Ok m /\
              ~ In m (legal_moves Book.engine (new_board Book.engine)))
   \/ (illegal_msg = invalid_msg /\
       exists e, from_uci Book.engine "e2e5" = Raise e)).
Proof.
  exact (read_move_table Book.engine Book.contract (new_board Book.engine) "e2e5").
Defined.

(** X6: any number of rejected lines in a row changes nothing: after showing
    the prompt and the message for each, the loop is where it was, with
    the same board and history, reading the next line. *)
Theorem rejected_lines_reprompt (E : Engine) (bad : list string) (fuel : nat)
  (stdin : list string) (api : list Client) (st : State E)
  (G : is_game_over E (board st) = false)
  (T : turn E (board st) = WHITE)
  (B : Forall (fun s => exists msg, read_move E (board st) s = Rejected msg) bad) :
  let r := game_loop E (length bad + fuel) (bad ++ stdin) api st in
  let r' := game_loop E fuel stdin api st in
  status r = status r' /\ final r = final r' /\
  trace r = flat_map (rejection (board st)) bad ++ trace r' /\
  pushes (flat_map (rejection (board st)) bad) = [] /\
  length (flat_map (rejection (board st)) bad) = 2 * length bad.
Proof.
  intros r r'. subst r r'.
  rewrite (game_loop_reprompts E bad fuel stdin api st G T B).
  unfold before. simpl. repeat split.
  - clear - B. induction B as [| s bad [msg R] B IH]; simpl; [reflexivity |].
    rewrite pushes_app, IH. unfold rejection. now rewrite R.
  - clear - B. induction B as [| s bad [msg R] B IH]; simpl; [reflexivity |].
    rewrite length_app, IH. unfold rejection. rewrite R. simpl. lia.
Qed.

Lemma rejected_lines_reprompt_witness :
  final (game_loop Book.engine 3 ["zzz"; "e2e5"; "e4"]%string [] (initial Book.engine))
  = final (game_loop Book.engine 1 ["e4"]%string [] (initial Book.engine)).
Proof.
  assert (B : Forall (fun s => exists msg,
                          read_move Book.engine (board (initial Book.engine)) s
                          = Rejected msg) ["zzz"; "e2e5"]%string).
  { repeat constructor; eexists; reflexivity. }
  exact (proj1 (proj2 (rejected_lines_reprompt Book.engine ["zzz"; "e2e5"]%string
                         1 ["e4"]%string [] (initial Book.engine)
                         eq_refl eq_refl B))).
Defined.



(** X8: when the engine keeps its contract, a move is pushed only on a board
    that is not over, and the move pushed is a legal move of that board or
    the null move. *)
Theorem pushes_on_open_boards (E : Engine) (C : Contract E) (fuel : nat)
  (stdin : list string) (api : list Client) :
  Forall (fun p => is_game_over E (ply_before p) = false /\
                   (In (ply_move p) (legal_moves E (ply_before p))
                    \/ ply_move p = null E))
         (pushes (trace (play_chess E fuel stdin api))).
Proof.
  destruct (play_chess_log E fuel stdin api) as (P & _).
  rewrite P.
  destruct (game_loop_rendered E fuel stdin api (initial E)) as (_ & _ & G & _).
  destruct (game_loop_sound E C fuel stdin api (initial E)) as (_ & L & _).
  rewrite Forall_forall in *. intros p H. split; auto.
Qed.

Lemma pushes_on_open_boards_witness :
  Forall (fun p => is_game_over Book.engine (ply_before p) = false /\
                   (In (ply_move p) (legal_moves Book.engine (ply_before p))
                    \/ ply_move p = null Book.engine))
         (pushes (trace Book.fools_mate)).
Proof.
  exact (pushes_on_open_boards Book.engine Book.contract 10
           ["f3"; "zzz"; "e2e5"; "g2g4"]%string
           [Book.says "e5"; Book.says "Qh4#"]).
Defined.

(** X9: when the engine keeps its contract, a game sends exactly one request
    for each move the model makes: no request without a move, no second
    request for a move. *)
Theorem one_request_per_model_move (E : Engine) (C : Contract E) (fuel : nat)
  (stdin : list string) (api : list Client) :
  length (requests (trace (play_chess E fuel stdin api)))
  = length (filter by_model (pushes (trace (play_chess E fuel stdin api)))).
Proof.
  destruct (play_chess_log E fuel stdin api) as (P & _).
  destruct (play_chess_shown E fuel stdin api) as (_ & _ & R).
  rewrite P, R. apply (game_loop_sound E C).
Qed.

Lemma one_request_per_model_move_witness :
  length (requests (trace Book.fools_mate)) = 2.
Proof.
  exact (one_request_per_model_move Book.engine Book.contract 10
           ["f3"; "zzz"; "e2e5"; "g2g4"]%string
           [Book.says "e5"; Book.says "Qh4#"]).
Defined.

(** X10: the board a game stops on is the opening board with the pushed moves
    applied in order. *)
Theorem board_is_replay (E : Engine) (fuel : nat) (stdin : list string)
  (api : list Client) :
  board (final (play_chess E fuel stdin api))
  = fold_left (push E)
      (map ply_move (pushes (trace (play_chess E fuel stdin api))))
      (new_board E).
Proof.
  destruct (play_chess_logged E fuel stdin api) as (L & _).
  apply line_replay in L. exact L.
Qed.

(** X11: a game shows the opening position once, and then, for each move pushed
    and in the same order, the position that move leads to, under the title
    "After" and the SAN of the move rendered before the push; the boards
    printed on the console are the same positions.  Nothing is shown for a
    rejected line or a failed model call. *)
Theorem boards_shown (E : Engine) (fuel : nat) (stdin : list string)
  (api : list Client) :
  let g := play_chess E fuel stdin api in
  displays (trace g)
  = (new_board E, "Initial position"%string) :: map shown (pushes (trace g)) /\
  printed_boards (trace g) = new_board E :: map ply_after (pushes (trace g)) /\
  length (displays (trace g)) = S (length (move_history (final g))).
Proof.
  intros g. subst g.
  destruct (play_chess_log E fuel stdin api) as (P & _).
  destruct (play_chess_shown E fuel stdin api) as (D & B & _).
  destruct (game_loop_rendered E fuel stdin api (initial E)) as (D' & B' & _).
  destruct (play_chess_logged E fuel stdin api) as (_ & H & _).
  rewrite D, B, P, D', B'. repeat split.
  simpl. rewrite H, <- P. simpl. now rewrite !length_map.
Qed.

(** X12: every request of a game carries, as its message, the opening sentence
    followed by the transcript of the moves made until then (a prefix of
    the final history), and never the number of a coming move: the model is
    only asked with Black to move. *)
Theorem prompts_are_transcripts (E : Engine) (fuel : nat) (stdin : list string)
  (api : list Client) :
  let g := play_chess E fuel stdin api in
  Forall (fun req => exists k,
              req_content req
              = "Let's play chess. " ^^ transcript (firstn k (move_history (final g))))
         (requests (trace g)).
Proof.
  intros g. subst g.
  destruct (play_chess_log E fuel stdin api) as (_ & _ & F & _).
  destruct (play_chess_shown E fuel stdin api) as (_ & _ & R).
  destruct (game_loop_rendered E fuel stdin api (initial E)) as (_ & _ & _ & Q).
  rewrite R, F. exact Q.
Qed.



(** ** Turns and waiting *)

Section Turns.

Variable E : Engine.

Lemma inputs_app (l1 l2 : list (Event E)) :
  inputs (l1 ++ l2) = inputs l1 ++ inputs l2.
Proof.
  induction l1 as [| e l1 IH]; simpl; [reflexivity |].
  destruct e; simpl; now rewrite IH.
Qed.

Lemma human_turn_reads_nothing (st : State E) (s : string) :
  inputs (iter_events (human_turn E st s)) = [].
Proof.
  unfold human_turn.
  destruct (read_move E (board st) s) as [m | msg | e]; reflexivity.
Qed.

Lemma get_gpt4_move_reads_nothing (client : Client) (b : Board E) (h : list string) :
  inputs (fst (get_gpt4_move E client b h)) = [].
Proof.
  unfold get_gpt4_move, try_model.
  destruct (client (request_of E b h)) as [e | | [e | v]]; simpl; auto.
  - destruct (first_legal E b); reflexivity.
  - destruct (parse_chosen E b v); reflexivity.
Qed.

Lemma model_turn_reads_nothing (client : Client) (st : State E) :
  inputs (iter_events (model_turn E client st)) = [].
Proof.
  unfold model_turn.
  pose proof (get_gpt4_move_reads_nothing client (board st) (move_history st)) as R.
  destruct (get_gpt4_move E client (board st) (move_history st)) as [evs [m | e]];
    simpl in *; rewrite ?inputs_app, R; reflexivity.
Qed.

Lemma starved_before (stdin stdin' : list string) (api api' : list Client)
  (evs : list (Event E)) (r : Run E) :
  inputs evs ++ stdin' = stdin ->
  length (requests evs) + length api' = length api ->
  starved stdin' api' r -> starved stdin api (before E evs r).
Proof.
  intros I R (G & W & B). unfold starved, before. simpl.
  rewrite inputs_app, requests_app, length_app.
  split; [exact G |]. split; intros T.
  - now rewrite (W T).
  - now rewrite (B T).
Qed.

Lemma game_loop_starved (fuel : nat) :
  forall stdin api st,
    length stdin + length api < fuel ->
    status (game_loop E fuel stdin api st) = Waiting ->
    starved stdin api (game_loop E fuel stdin api st).
Proof.
  induction fuel as [| fuel IH]; intros stdin api st F; [lia |].
  simpl. destruct (is_game_over E (board st)) eqn:G; [discriminate |].
  destruct (turn E (board st)) eqn:T.
  - destruct stdin as [| s stdin].
    + intros _. unfold starved. simpl. repeat split; auto. congruence.
    + pose proof (human_turn_reads_nothing st s) as R.
      pose proof (human_turn_shows E st s) as K.
      simpl in F.
      destruct (human_turn E st s) as [st' evs | evs | e evs]; simpl in *.
      * destruct K as (m & _ & _ & _ & _ & Q).
        destruct (is_game_over E (board st')); [discriminate |].
        intros S. apply (starved_before _ stdin _ api).
        { simpl. now rewrite R. }
        { simpl. now rewrite Q. }
        apply IH; [lia | exact S].
      * destruct K as (_ & _ & _ & Q).
        intros S. apply (starved_before _ stdin _ api).
        { simpl. now rewrite R. }
        { simpl. now rewrite Q. }
        apply IH; [lia | exact S].
      * discriminate.
  - destruct api as [| client api].
    + intros _. unfold starved. simpl. repeat split; auto. congruence.
    + pose proof (model_turn_reads_nothing client st) as R.
      pose proof (model_turn_shows E client st) as K.
      simpl in F.
      destruct (model_turn E client st) as [st' evs | evs | e evs]; simpl in *.
      * destruct K as (m & _ & _ & _ & _ & Q).
        intros S. apply (starved_before _ stdin _ api).
        { now rewrite R. }
        { now rewrite Q. }
        apply IH; [lia | exact S].
      * destruct K as (_ & _ & _ & Q).
        intros S. apply (starved_before _ stdin _ api).
        { now rewrite R. }
        { now rewrite Q. }
        apply IH; [lia | exact S].
      * discriminate.
Qed.

Lemma play_chess_inputs (fuel : nat) (stdin : list string) (api : list Client) :
  inputs (trace (play_chess E fuel stdin api))
  = inputs (trace (game_loop E fuel stdin api (initial E))).
Proof.
  unfold play_chess.
  destruct (status (game_loop E fuel stdin api (initial E))); simpl;
    rewrite ?inputs_app; simpl; rewrite ?app_nil_r; reflexivity.
Qed.

Hypothesis C : Contract E.

Lemma line_side (ps : list (Ply E)) :
  forall b b', line b ps b' -> turn E b' = side_after (length ps) (turn E b).
Proof.
  induction ps as [| p ps IH]; intros b b'; simpl.
  - intros ->. reflexivity.
  - intros [Q L]. rewrite (IH _ _ L), (turn_push E C). reflexivity.
Qed.

End Turns.

Lemma side_after_even (n : nat) (c : Color) :
  side_after n c = if Nat.even n then c else other c.
Proof.
  revert c. induction n as [| n IH]; intros c; [reflexivity |].
  simpl side_after. rewrite IH, Nat.even_succ, <- Nat.negb_even.
  destruct (Nat.even n), c; reflexivity.
Qed.

(** X14: when the engine keeps its contract, the side to move and the history
    agree throughout a game: White is to move when the history has an even
    number of moves, Black when it has an odd number.  So the moves at even
    indices of the history, which the transcript numbers, are White's. *)
Theorem turn_matches_history (E : Engine) (C : Contract E) (fuel : nat)
  (stdin : list string) (api : list Client) :
  let g := play_chess E fuel stdin api in
  turn E (board (final g))
  = if Nat.even (length (move_history (final g))) then WHITE else BLACK.
Proof.
  intros g. subst g.
  destruct (play_chess_logged E fuel stdin api) as (L & H & _).
  rewrite (line_side E C _ _ _ L), H. simpl.
  rewrite length_map, side_after_even, (new_board_white E C).
  destruct (Nat.even _); reflexivity.
Qed.

Lemma turn_matches_history_witness :
  turn Book.engine (board (final (play_chess Book.engine 3 ["e4"]%string [])))
  = if Nat.even (length (move_history
                           (final (play_chess Book.engine 3 ["e4"]%string []))))
    then WHITE else BLACK.
Proof.
  exact (turn_matches_history Book.engine Book.contract 3 ["e4"]%string []).
Defined.

(** X15: when the engine keeps its contract, the model's turn on a board that is
    not over always ends with a move: whatever the service does, one move is
    pushed, the turn passes to the other side and the history grows by the
    SAN of that move.  There is no retry and no way out without a move. *)
Theorem model_turn_always_moves (E : Engine) (C : Contract E) (client : Client)
  (st : State E) (G : is_game_over E (board st) = false) :
  exists m evs,
    model_turn E client st = Applied (after st m) evs /\
    (In m (legal_moves E (board st)) \/ m = null E) /\
    turn E (board (after st m)) = other (turn E (board st)) /\
    move_history (after st m) = move_history st ++ [san E (board st) m].
Proof.
  destruct (model_turn_sound E C client st G) as (m & evs & H & _ & _ & L).
  exists m, evs. repeat split; auto.
  apply (turn_push E C).
Qed.

Lemma model_turn_always_moves_witness :
  exists m evs,
    model_turn Book.engine Book.down (Build_State Book.engine ["e2e4"] ["e4"])%string
    = Applied (after (Build_State Book.engine ["e2e4"] ["e4"])%string m) evs.
Proof.
  destruct (model_turn_always_moves Book.engine Book.contract Book.down
              (Build_State Book.engine ["e2e4"] ["e4"])%string eq_refl)
    as (m & evs & H & _).
  exists m, evs. exact H.
Defined.

(** X16: a game that is followed long enough waits only for what it lacks: when
    it waits the board is not over, and either White is to move and every
    line given was read, in order, or Black is to move and every reply
    given was used. *)
Theorem waits_only_for_input (E : Engine) (fuel : nat) (stdin : list string)
  (api : list Client)
  (F : length stdin + length api < fuel)
  (W : status (play_chess E fuel stdin api) = Waiting) :
  let g := play_chess E fuel stdin api in
  is_game_over E (board (final g)) = false /\
  (turn E (board (final g)) = WHITE -> inputs (trace g) = stdin) /\
  (turn E (board (final g)) = BLACK -> length (requests (trace g)) = length api).
Proof.
  intros g. subst g.
  destruct (play_chess_log E fuel stdin api) as (_ & _ & Fi & St).
  destruct (play_chess_shown E fuel stdin api) as (_ & _ & R).
  rewrite St in W.
  destruct (game_loop_starved E fuel stdin api (initial E) F W) as (G & Wh & Bl).
  rewrite Fi, R, play_chess_inputs. auto.
Qed.

Lemma waits_only_for_input_witness :
  length (requests (trace (play_chess Book.engine 3 ["zzz"; "e4"]%string []))) = 0.
Proof.
  assert (F : length ["zzz"; "e4"]%string + length (@nil Client) < 3)
    by (simpl; lia).
  destruct (waits_only_for_input Book.engine 3 ["zzz"; "e4"]%string [] F eq_refl)
    as (_ & _ & B).
  exact (B eq_refl).
Defined.

(** ** The history against the board *)

Lemma line_sans (E : Engine) (ps : list (Ply E)) :
  forall b b', line b ps b' -> sans_along b (map ply_move ps) = map ply_san ps.
Proof.
  induction ps as [| p ps IH]; intros b b'; simpl; [reflexivity |].
  intros [Q L]. subst b. unfold ply_san at 1. f_equal. eapply IH; eauto.
Qed.

(** C7: the move history only grows, and by exactly one SAN string for each
    move applied to the board, rendered on the board before the push.  One
    pass through the loop body either leaves board and history as they
    were or pushes one move and appends its SAN, both or neither.  A run of
    the loop from any state stops on the board reached by applying the
    logged moves in order to the board it started on, with the history it
    started with followed by the SAN of those moves along the way; the
    appends logged are those strings.  In a game, which starts on the
    opening board with an empty history, the history is the list of the
    SAN of the moves applied to the board, so its length is their
    number. *)
Theorem history_append_only (E : Engine) (fuel : nat) (stdin : list string)
  (api : list Client) (st : State E) :
  let r := game_loop E fuel stdin api st in
  let g := play_chess E fuel stdin api in
  move_history (final r) = move_history st ++ map ply_san (pushes (trace r)) /\
  appended (trace r) = map ply_san (pushes (trace r)) /\
  move_history (final g) = map ply_san (pushes (trace g)) /\
  appended (trace g) = move_history (final g) /\
  length (move_history (final g)) = length (pushes (trace g)) /\
  board (final r)
  = fold_left (push E) (map ply_move (pushes (trace r))) (board st) /\
  move_history (final r)
  = move_history st ++ sans_along (board st) (map ply_move (pushes (trace r))) /\
  (exists ms,
      board (final g) = fold_left (push E) ms (new_board E) /\
      move_history (final g) = sans_along (new_board E) ms /\
      appended (trace g) = sans_along (new_board E) ms /\
      length (move_history (final g)) = length ms) /\
  (forall s,
      match human_turn E st s with
      | Applied st' evs =>
          exists m, board st' = push E (board st) m /\
                    move_history st' = move_history st ++ [san E (board st) m] /\
                    appended evs = [san E (board st) m]
      | Retry evs => appended evs = []
      | Crash _ evs => appended evs = []
      end) /\
  (forall client,
      match model_turn E client st with
      | Applied st' evs =>
          exists m, board st' = push E (board st) m /\
                    move_history st' = move_history st ++ [san E (board st) m] /\
                    appended evs = [san E (board st) m]
      | Retry evs => appended evs = []
      | Crash _ evs => appended evs = []
      end).
Proof.
  intros r g.
  destruct (game_loop_logged E fuel stdin api st) as (L & H & Ap & _).
  destruct (play_chess_logged E fuel stdin api) as (Lg & Hg & Apg & _).
  simpl in Hg, Lg. fold r in L, H, Ap. fold g in Lg, Hg, Apg.
  pose proof (line_sans E _ _ _ L) as S.
  pose proof (line_sans E _ _ _ Lg) as Sg.
  pose proof (line_replay E _ _ _ L) as R.
  pose proof (line_replay E _ _ _ Lg) as Rg.
  split; [exact H |]. split; [exact Ap |]. split; [exact Hg |].
  split; [congruence |]. split; [rewrite Hg; apply length_map |].
  split; [exact R |]. split; [now rewrite S |]. split.
  - exists (map ply_move (pushes (trace g))).
    split; [exact Rg |]. split; [now rewrite Sg |].
    split; [now rewrite Sg |]. now rewrite Hg, !length_map.
  - split.
    + intros s. pose proof (human_turn_ok E st s) as K.
      destruct (human_turn E st s) as [st' evs | evs | e evs]; simpl in K.
      * destruct K as (m & -> & _ & A). exists m. auto.
      * tauto.
      * tauto.
    + intros client. pose proof (model_turn_ok E client st) as K.
      destruct (model_turn E client st) as [st' evs | evs | e evs]; simpl in K.
      * destruct K as (m & -> & _ & A). exists m. auto.
      * tauto.
      * tauto.
Qed.

Lemma history_append_only_witness :
  board (final Book.fools_mate) = ["f2f3"; "e7e5"; "g2g4"; "d8h4"]%string /\
  move_history (final Book.fools_mate) = ["f3"; "e5"; "g4"; "Qh4#"]%string /\
  appended (trace Book.fools_mate) = ["f3"; "e5"; "g4"; "Qh4#"]%string /\
  map ply_move (pushes (trace Book.fools_mate))
  = ["f2f3"; "e7e5"; "g2g4"; "d8h4"]%string.
Proof.
  destruct (history_append_only Book.engine 10
              ["f3"; "zzz"; "e2e5"; "g2g4"]%string
              [Book.says "e5"; Book.says "Qh4#"] (initial Book.engine))
    as (_ & _ & H & A & _ & _ & _ & _ & _ & _).
  assert (P : map ply_move (pushes (trace Book.fools_mate))
              = ["f2f3"; "e7e5"; "g2g4"; "d8h4"]%string)
    by (vm_compute; reflexivity).
  assert (B : fold_left (push Book.engine)
                (map ply_move (pushes (trace Book.fools_mate)))
                (new_board Book.engine)
              = board (final Book.fools_mate))
    by (vm_compute; reflexivity).
  split; [rewrite <- B, P; reflexivity |].
  split; [| split; [| exact P]].
  - unfold Book.fools_mate. rewrite H. vm_compute. reflexivity.
  - unfold Book.fools_mate. rewrite A, H. vm_compute. reflexivity.
Defined.

Lemma transcript_snoc_witness :
  prompt_of Book.engine ["e2e4"; "e7e5"; "g1f3"]%string ["e4"; "e5"; "Nf3"]%string
  = (prompt_of Book.engine ["e2e4"]%string ["e4"; "e5"]%string ^^ "2. Nf3 ")%string.
Proof.
  destruct (transcript_snoc Book.engine ["e2e4"]%string
              ["e2e4"; "e7e5"; "g1f3"]%string ["e4"; "e5"]%string "Nf3"%string)
    as (_ & _ & P).
  exact (proj2 (P (conj eq_refl eq_refl))).
Defined.
